(** * Zurg Broken Torrent Monitor: a shallow embedding of zurg-monitor.py

    The monitor polls a remote management page, re-triggers repairs and
    keeps process-lifetime statistics.  Its methods mutate [self] and talk
    to the outside world (network, clock, log sinks); they are embedded as
    computations of a small state-and-exception monad that also returns the
    trace of the effects a call produced. *)

From Stdlib Require Import QArith Ascii String.
From stdpp Require Import gmap strings list.

Local Open Scope string_scope.
Local Open Scope list_scope.
Local Open Scope Z_scope.

(** ** Data model *)

(** [class LogLevel(Enum)] *)
Inductive LogLevel := INFO | WARN | ERROR | SUCCESS | DEBUG | TRACE | OUTPUT.

(** The levels of the [logging] module reached through [level_map]. *)
Inductive LoggingLevel := logging_DEBUG | logging_INFO | logging_WARNING | logging_ERROR.

(** [@dataclass class TorrentInfo] *)
Record TorrentInfo := {
  hash : string;
  name : string;
  state : string;
}.

(** [@dataclass class CheckStats]; Python's unbounded [int] is [Z]. *)
Record CheckStats := {
  cs_broken_found : Z;
  cs_under_repair_found : Z;
  cs_repairs_triggered : Z;
  broken_hashes : list string;
  broken_names : list string;
  under_repair_hashes : list string;
  under_repair_names : list string;
  total_torrents : Z;
  ok_torrents : Z;
}.

(** [CheckStats()]: every field at its default. *)
Definition CheckStats_new : CheckStats :=
  {| cs_broken_found := 0; cs_under_repair_found := 0; cs_repairs_triggered := 0;
     broken_hashes := []; broken_names := [];
     under_repair_hashes := []; under_repair_names := [];
     total_torrents := 0; ok_torrents := 0 |}.

(** [@dataclass class OverallStats]; a [datetime] is the clock reading (a
    rational number of seconds) at which it was taken. *)
Record OverallStats := {
  total_checks : Z;
  broken_found : Z;
  under_repair_found : Z;
  repairs_triggered : Z;
  last_check : option Q;
  last_broken_found : option Q;
  current_check : CheckStats;
  previous_check_broken : list string;
  previous_check_under_repair : list string;
  previous_check_triggered : list string;
}.

Definition OverallStats_new : OverallStats :=
  {| total_checks := 0; broken_found := 0; under_repair_found := 0;
     repairs_triggered := 0; last_check := None; last_broken_found := None;
     current_check := CheckStats_new;
     previous_check_broken := []; previous_check_under_repair := [];
     previous_check_triggered := [] |}.

(** The configuration dictionary built by [load_config]: every key it sets.
    Numbers that only feed [time.sleep] are rationals. *)
Record Config := {
  zurg_url : string;
  username : string;
  password : string;
  check_interval : Z;
  log_file : string;
  cfg_rate_limit_requests : Z;
  cfg_rate_limit_delay : Q;
  rate_limit_backoff : Q;
  verbose : bool;
  trace : bool;
  debug : bool;
}.

(** The fields of a [ZurgMonitor] instance ([self.logger] is the file sink,
    which appears in the trace instead). *)
Record ZurgMonitor := {
  config : Config;
  dry_run : bool;
  stats : OverallStats;
  rate_limit_delay : Q;
  rate_limit_requests : Z;
  request_count : Z;
}.

(** ** The outside world *)

(** What [urllib.request.urlopen] followed by [response.read()] does for one
    request: it delivers a body or raises one of the three exception classes
    that [_make_request] tells apart. *)
Inductive Response :=
| Body (content : list Byte.byte)
| HTTPError (code : Z) (reason : string)
| URLError (reason : string)
| OtherError (text : string).

(** The environment answers the [n]-th request of the process with
    [net n]; [clock] is the wall clock in seconds, advanced by [time.sleep]. *)
Record World := {
  net : nat -> Response;
  sent : nat;
  clock : Q;
}.

Record State := {
  self : ZurgMonitor;
  world : World;
}.

(** Exceptions that the embedded code can meet. *)
Inductive Exn :=
| KeyboardInterrupt
| NameError (name : string)
| ValueError (text : string).

(** [except Exception] catches every class but [KeyboardInterrupt]. *)
Definition is_Exception (e : Exn) : bool :=
  match e with
  | KeyboardInterrupt => false
  | NameError _ | ValueError _ => true
  end.

(** The pieces of an f-string, kept unrendered: literal text, a [str]
    value, an [int], a configured number, [round((num / den) * 100, nd)]
    (a float the model does not evaluate), a formatted [datetime],
    [str(e)] and [traceback.format_exc()]. *)
Inductive Part :=
| Lit (s : string)
| Str (s : string)
| Int (n : Z)
| Num (q : Q)
| Pct (num den nd : Z)
| Time (t : Q)
| ExcText (e : Exn)
| Traceback (e : Exn).

Definition Message := list Part.

(** Observable effects, in the order they happen. *)
Inductive Event :=
| EvFile (level : LoggingLevel) (message : Message)
| EvConsole (level : LogLevel) (message : Message)
| EvPrint (message : Message)
| EvSleep (seconds : Q)
| EvRequest (method : string) (url : string) (timeout : Z).

(** ** The monad *)

Inductive Outcome (A : Type) :=
| Return (a : A)
| Raise (e : Exn).
Arguments Return {A} a.
Arguments Raise {A} e.

Record Run (A : Type) := mkRun {
  outcome : Outcome A;
  final : State;
  events : list Event;
}.
Arguments mkRun {A} _ _ _.
Arguments outcome {A} _.
Arguments final {A} _.
Arguments events {A} _.

Definition M (A : Type) := State -> Run A.

Definition ret {A} (a : A) : M A := fun s => mkRun (Return a) s [].

Definition raise {A} (e : Exn) : M A := fun s => mkRun (Raise e) s [].

Definition bind {A B} (m : M A) (k : A -> M B) : M B := fun s =>
  let r := m s in
  match outcome r with
  | Return a =>
      let r' := k a (final r) in
      mkRun (outcome r') (final r') (events r ++ events r')
  | Raise e => mkRun (Raise e) (final r) (events r)
  end.

Notation "x <- m ;; k" := (bind m (fun x => k))
  (at level 100, m at next level, right associativity).
Notation "m ;; k" := (bind m (fun _ => k))
  (at level 100, right associativity).

(** [try: body / except Exception as e: handler e]. *)
Definition try_except {A} (body : M A) (handler : Exn -> M A) : M A := fun s =>
  let r := body s in
  match outcome r with
  | Return a => r
  | Raise e =>
      if is_Exception e then
        let r' := handler e (final r) in
        mkRun (outcome r') (final r') (events r ++ events r')
      else r
  end.

(** [for x in xs: body x] *)
Fixpoint for_each {A} (xs : list A) (body : A -> M unit) : M unit :=
  match xs with
  | [] => ret tt
  | x :: xs' => body x ;; for_each xs' body
  end.

Definition get_self : M ZurgMonitor := fun s => mkRun (Return (self s)) s [].

Definition put_self (m : ZurgMonitor) : M unit := fun s =>
  mkRun (Return tt) {| self := m; world := world s |} [].

Definition get_stats : M OverallStats := fun s => mkRun (Return (stats (self s))) s [].

Definition set_stats (m : ZurgMonitor) (st : OverallStats) : ZurgMonitor :=
  {| config := config m; dry_run := dry_run m; stats := st;
     rate_limit_delay := rate_limit_delay m;
     rate_limit_requests := rate_limit_requests m;
     request_count := request_count m |}.

Definition set_request_count (m : ZurgMonitor) (n : Z) : ZurgMonitor :=
  {| config := config m; dry_run := dry_run m; stats := stats m;
     rate_limit_delay := rate_limit_delay m;
     rate_limit_requests := rate_limit_requests m;
     request_count := n |}.

(** [datetime.now()] *)
Definition datetime_now : M Q := fun s => mkRun (Return (clock (world s))) s [].

(** [time.sleep(seconds)]: a negative argument raises [ValueError]. *)
Definition time_sleep (seconds : Q) : M unit := fun s =>
  if Qle_bool 0 seconds then
    mkRun (Return tt)
      {| self := self s;
         world := {| net := net (world s); sent := sent (world s);
                     clock := (clock (world s) + seconds)%Q |} |}
      [EvSleep seconds]
  else mkRun (Raise (ValueError "sleep length must be non-negative")) s [].

(** ** Logging *)

Definition level_map (level : LogLevel) : LoggingLevel :=
  match level with
  | INFO => logging_INFO
  | WARN => logging_WARNING
  | ERROR => logging_ERROR
  | SUCCESS => logging_INFO
  | DEBUG => logging_DEBUG
  | TRACE => logging_DEBUG
  | OUTPUT => logging_INFO
  end.

(** The two flags computed at the top of [_log]. *)
Definition should_log (c : Config) (level : LogLevel) : bool :=
  match level with
  | TRACE => trace c
  | DEBUG => debug c || trace c
  | INFO => true
  | WARN | ERROR | SUCCESS => true
  | OUTPUT => true
  end.

Definition should_print (c : Config) (level : LogLevel) : bool :=
  match level with
  | TRACE => trace c
  | DEBUG => debug c || trace c
  | INFO => verbose c || debug c || trace c
  | WARN | ERROR | SUCCESS => true
  | OUTPUT => true
  end.

(** [_log(message, level)].  The colour argument only selects the escape
    sequence wrapped around the console line and is left out, as is the
    time stamp that prefixes it. *)
Definition log_events (c : Config) (message : Message) (level : LogLevel) : list Event :=
  (if should_log c level then [EvFile (level_map level) message] else []) ++
  (if should_print c level then [EvConsole level message] else []).

Definition _log (message : Message) (level : LogLevel) : M unit := fun s =>
  mkRun (Return tt) s (log_events (config (self s)) message level).

(** ** Rate limiter *)

(** [_check_rate_limit] *)
Definition _check_rate_limit : M unit :=
  m <- get_self ;;
  put_self (set_request_count m (request_count m + 1)) ;;
  m <- get_self ;;
  if Z.leb (rate_limit_requests m) (request_count m) then
    let backoff_time := rate_limit_backoff (config m) in
    _log [Lit "Rate limit reached ("; Int (rate_limit_requests m);
          Lit " requests), backing off for "; Num backoff_time; Lit "s..."] DEBUG ;;
    time_sleep backoff_time ;;
    m <- get_self ;;
    put_self (set_request_count m 0)
  else
    time_sleep (rate_limit_delay m).



(** The built-in defaults of [load_config]; the default log file lives
    below the directory of the script. *)
Definition default_config (script_dir : string) : Config :=
  {| zurg_url := "http://localhost:9999";
     username := "";
     password := "";
     check_interval := 30;
     log_file := script_dir +:+ "/logs/zurg-monitor.log";
     cfg_rate_limit_requests := 10;
     cfg_rate_limit_delay := 1 # 2;
     rate_limit_backoff := 5;
     verbose := false;
     trace := false;
     debug := false |}.

(** [ZurgMonitor.__init__] (logger set-up and PUID/PGID handling are
    start-up plumbing outside the model). *)
Definition ZurgMonitor_new (c : Config) (dry : bool) : ZurgMonitor :=
  {| config := c; dry_run := dry; stats := OverallStats_new;
     rate_limit_delay := cfg_rate_limit_delay c;
     rate_limit_requests := cfg_rate_limit_requests c;
     request_count := 0 |}.

Definition start (c : Config) (dry : bool) (w : World) : State :=
  {| self := ZurgMonitor_new c dry; world := w |}.

(** A world in which nothing answers. *)
Definition unreachable : World :=
  {| net := fun _ => URLError "Connection refused"; sent := 0; clock := 0 |}.

(** ** Truthiness *)

Definition str_truthy (s : string) : bool :=
  match s with EmptyString => false | String _ _ => true end.

Definition list_truthy {A} (l : list A) : bool :=
  match l with [] => false | _ :: _ => true end.

Definition int_truthy (n : Z) : bool := negb (Z.eqb n 0).

(** [len(l)] *)
Definition len {A} (l : list A) : Z := Z.of_nat (length l).

(** [s * n] on strings *)
Fixpoint str_mul (s : string) (n : nat) : string :=
  match n with
  | O => ""
  | S n' => s +:+ str_mul s n'
  end.

(** ** Scanning the listing for identifiers *)

(** The character class [[a-fA-F0-9]]. *)
Definition is_hex (c : ascii) : bool :=
  match c with
  | "0" | "1" | "2" | "3" | "4" | "5" | "6" | "7" | "8" | "9"
  | "a" | "b" | "c" | "d" | "e" | "f"
  | "A" | "B" | "C" | "D" | "E" | "F" => true
  | _ => false
  end%char.

(** [str.lower()], which the source applies to matched identifiers only. *)
Definition lower_char (c : ascii) : ascii :=
  let n := N_of_ascii c in
  if ((65 <=? n) && (n <=? 90))%N then ascii_of_N (n + 32) else c.

Fixpoint lower (s : string) : string :=
  match s with
  | EmptyString => EmptyString
  | String c s' => String (lower_char c) (lower s')
  end.

(** The double quote character. *)
Definition dquote : string := String "034"%char EmptyString.

(** [s] starts with the literal [lit]: the rest of [s]. *)
Fixpoint strip_prefix (lit s : string) : option string :=
  match lit with
  | EmptyString => Some s
  | String c lit' =>
      match s with
      | String d s' => if Ascii.eqb c d then strip_prefix lit' s' else None
      | EmptyString => None
      end
  end.

(** [[a-fA-F0-9]{n}] at the head of [s]: the characters matched and the rest. *)
Fixpoint take_hex (n : nat) (s : string) : option (string * string) :=
  match n with
  | O => Some (EmptyString, s)
  | S n' =>
      match s with
      | String c s' =>
          if is_hex c then
            match take_hex n' s' with
            | Some (g, r) => Some (String c g, r)
            | None => None
            end
          else None
      | EmptyString => None
      end
  end.

(** A pattern [before([a-fA-F0-9]{40})after], both ends literal, matched at
    the head of [s]: group 1. *)
Definition match_here (before after s : string) : option string :=
  match strip_prefix before s with
  | Some s1 =>
      match take_hex 40 s1 with
      | Some (g, s2) =>
          match strip_prefix after s2 with
          | Some _ => Some g
          | None => None
          end
      | None => None
      end
  | None => None
  end.

(** [re.finditer] for such a pattern: group 1 of every match, left to
    right, the scan resuming where the previous match ended ([skip] counts
    the characters of that match still to be passed). *)
Fixpoint finditer (before after s : string) (skip : nat) : list string :=
  match s with
  | EmptyString => []
  | String _ s' =>
      match skip with
      | S k => finditer before after s' k
      | O =>
          match match_here before after s with
          | Some g =>
              g :: finditer before after s'
                     (String.length before + 40 + String.length after - 1)
          | None => finditer before after s' 0
          end
      end
  end.

(** [hash_pattern = r'data-hash="([a-fA-F0-9]{40})"'] of
    [get_total_torrent_stats]. *)
Definition data_hash_before : string := "data-hash=" +:+ dquote.
Definition data_hash_after : string := dquote.

(** The fallback [hash_pattern = r'href="/manage/([a-fA-F0-9]{40})/"'] of
    [_parse_torrents_from_html]. *)
Definition manage_link_before : string := "href=" +:+ dquote +:+ "/manage/".
Definition manage_link_after : string := "/" +:+ dquote.

(** Lines 496-504 of [get_total_torrent_stats]: the set of lower-cased
    [data-hash] identifiers and its size. *)
Definition unique_hashes (html_content : string) : gset string :=
  list_to_set (map lower (finditer data_hash_before data_hash_after html_content 0)).

Definition count_total (html_content : string) : Z :=
  Z.of_nat (size (unique_hashes html_content)).

(** ** Comparison with the previous check *)

(** [sum(1 for h in l if p h)] *)
Fixpoint sum_1_for (p : string -> bool) (l : list string) : Z :=
  match l with
  | [] => 0
  | h :: l' => if p h then 1 + sum_1_for p l' else sum_1_for p l'
  end.

(** [h in l] on a list of strings *)
Definition str_in (h : string) (l : list string) : bool := bool_decide (h ∈ l).

(** The five metrics of [show_check_summary] (lines 739-754). *)
Definition repaired (st : OverallStats) : Z :=
  sum_1_for (fun h => negb (str_in h (broken_hashes (current_check st))) &&
                      negb (str_in h (under_repair_hashes (current_check st))))
            (previous_check_triggered st).

Definition moved_to_repair (st : OverallStats) : Z :=
  sum_1_for (fun h => str_in h (under_repair_hashes (current_check st)))
            (previous_check_broken st).

Definition still_broken (st : OverallStats) : Z :=
  sum_1_for (fun h => str_in h (broken_hashes (current_check st)))
            (previous_check_broken st).

Definition still_under_repair (st : OverallStats) : Z :=
  sum_1_for (fun h => str_in h (under_repair_hashes (current_check st)))
            (previous_check_under_repair st).

Definition new_broken (st : OverallStats) : Z :=
  sum_1_for (fun h => negb (str_in h (previous_check_broken st)) &&
                      negb (str_in h (previous_check_under_repair st)))
            (broken_hashes (current_check st)).

(** ** Field updates *)

Definition with_cs_counts (c : CheckStats) (b u r : Z) : CheckStats :=
  {| cs_broken_found := b; cs_under_repair_found := u; cs_repairs_triggered := r;
     broken_hashes := broken_hashes c; broken_names := broken_names c;
     under_repair_hashes := under_repair_hashes c;
     under_repair_names := under_repair_names c;
     total_torrents := total_torrents c; ok_torrents := ok_torrents c |}.

Definition with_cs_broken_found (c : CheckStats) (v : Z) : CheckStats :=
  with_cs_counts c v (cs_under_repair_found c) (cs_repairs_triggered c).

Definition with_cs_under_repair_found (c : CheckStats) (v : Z) : CheckStats :=
  with_cs_counts c (cs_broken_found c) v (cs_repairs_triggered c).

Definition with_cs_repairs_triggered (c : CheckStats) (v : Z) : CheckStats :=
  with_cs_counts c (cs_broken_found c) (cs_under_repair_found c) v.

Definition with_cs_lists (c : CheckStats) (bh bn uh un : list string) : CheckStats :=
  {| cs_broken_found := cs_broken_found c;
     cs_under_repair_found := cs_under_repair_found c;
     cs_repairs_triggered := cs_repairs_triggered c;
     broken_hashes := bh; broken_names := bn;
     under_repair_hashes := uh; under_repair_names := un;
     total_torrents := total_torrents c; ok_torrents := ok_torrents c |}.

Definition with_cs_gauges (c : CheckStats) (total ok : Z) : CheckStats :=
  {| cs_broken_found := cs_broken_found c;
     cs_under_repair_found := cs_under_repair_found c;
     cs_repairs_triggered := cs_repairs_triggered c;
     broken_hashes := broken_hashes c; broken_names := broken_names c;
     under_repair_hashes := under_repair_hashes c;
     under_repair_names := under_repair_names c;
     total_torrents := total; ok_torrents := ok |}.

Definition with_counters (st : OverallStats) (tc bf uf rt : Z) : OverallStats :=
  {| total_checks := tc; broken_found := bf; under_repair_found := uf;
     repairs_triggered := rt;
     last_check := last_check st; last_broken_found := last_broken_found st;
     current_check := current_check st;
     previous_check_broken := previous_check_broken st;
     previous_check_under_repair := previous_check_under_repair st;
     previous_check_triggered := previous_check_triggered st |}.

Definition with_times (st : OverallStats) (lc lb : option Q) : OverallStats :=
  {| total_checks := total_checks st; broken_found := broken_found st;
     under_repair_found := under_repair_found st;
     repairs_triggered := repairs_triggered st;
     last_check := lc; last_broken_found := lb;
     current_check := current_check st;
     previous_check_broken := previous_check_broken st;
     previous_check_under_repair := previous_check_under_repair st;
     previous_check_triggered := previous_check_triggered st |}.

Definition with_current_check (st : OverallStats) (c : CheckStats) : OverallStats :=
  {| total_checks := total_checks st; broken_found := broken_found st;
     under_repair_found := under_repair_found st;
     repairs_triggered := repairs_triggered st;
     last_check := last_check st; last_broken_found := last_broken_found st;
     current_check := c;
     previous_check_broken := previous_check_broken st;
     previous_check_under_repair := previous_check_under_repair st;
     previous_check_triggered := previous_check_triggered st |}.

Definition with_previous (st : OverallStats) (pb pu pt : list string) : OverallStats :=
  {| total_checks := total_checks st; broken_found := broken_found st;
     under_repair_found := under_repair_found st;
     repairs_triggered := repairs_triggered st;
     last_check := last_check st; last_broken_found := last_broken_found st;
     current_check := current_check st;
     previous_check_broken := pb;
     previous_check_under_repair := pu;
     previous_check_triggered := pt |}.

(** [self.stats.<field> = ...] and [self.stats.current_check.<field> = ...] *)
Definition modify_stats (f : OverallStats -> OverallStats) : M unit := fun s =>
  mkRun (Return tt)
    {| self := set_stats (self s) (f (stats (self s))); world := world s |} [].

Definition modify_check (f : CheckStats -> CheckStats) : M unit :=
  modify_stats (fun st => with_current_check st (f (current_check st))).

(** ** Remote state client *)

(** [_get_auth_headers]: the two fixed headers are always sent; the result
    tells whether an [Authorization] header is added to them. *)
Definition _get_auth_headers : M bool :=
  m <- get_self ;;
  let username := username (config m) in
  let password := password (config m) in
  if str_truthy username && str_truthy password then
    _log [Lit "Using authentication for user: "; Str username] TRACE ;;
    ret true
  else ret false.

(** [urllib.request.urlopen(request, timeout=timeout)] and
    [response.read()]: the next answer of the environment. *)
Definition urlopen_read (method url : string) (timeout : Z) : M Response := fun s =>
  let w := world s in
  mkRun (Return (net w (sent w)))
    {| self := self s;
       world := {| net := net w; sent := S (sent w); clock := clock w |} |}
    [EvRequest method url timeout].

(** [_make_request(url, method, timeout)] *)
Definition _make_request (url method : string) (timeout : Z) : M (option (list Byte.byte)) :=
  _log [Lit "Making "; Str method; Lit " request to: "; Str url] TRACE ;;
  _ <- _get_auth_headers ;;
  r <- urlopen_read method url timeout ;;
  match r with
  | Body content =>
      _log [Lit "Request successful, received "; Int (len content); Lit " bytes"] TRACE ;;
      ret (Some content)
  | HTTPError code reason =>
      _log [Lit "HTTP Error "; Int code; Lit ": "; Str reason;
            Lit " for URL: "; Str url] ERROR ;;
      ret None
  | URLError reason =>
      _log [Lit "URL Error: "; Str reason; Lit " for URL: "; Str url] ERROR ;;
      ret None
  | OtherError text =>
      _log [Lit "Unexpected error: "; Str text; Lit " for URL: "; Str url] ERROR ;;
      ret None
  end.

(** [if content:] on [Optional[bytes]] *)
Definition bytes_truthy (content : option (list Byte.byte)) : bool :=
  match content with
  | Some (_ :: _) => true
  | Some [] | None => false
  end.

(** [test_connection] *)
Definition test_connection : M bool :=
  try_except
    (m <- get_self ;;
     _log [Lit "Testing connection to Zurg at "; Str (zurg_url (config m)); Lit "..."] DEBUG ;;
     let url := zurg_url (config m) +:+ "/stats" in
     content <- _make_request url "GET" 10 ;;
     if bytes_truthy content then
       _log [Lit "Successfully connected to Zurg"] SUCCESS ;;
       ret true
     else
       _log [Lit "Failed to connect to Zurg"] ERROR ;;
       ret false)
    (fun e =>
       _log [Lit "Connection test failed: "; ExcText e] ERROR ;;
       ret false).

(** [trigger_repair(hash_value, name)] *)
Definition trigger_repair (hash_value name : string) : M bool :=
  try_except
    (m <- get_self ;;
     if dry_run m then
       _log [Lit "[DRY RUN] Would trigger repair for: "; Str name] INFO ;;
       ret true
     else
       _log [Lit "Triggering repair for torrent: "; Str name] INFO ;;
       let repair_url := zurg_url (config m) +:+ "/manage/" +:+ hash_value +:+ "/repair" in
       _log [Lit "  Repair URL: "; Str repair_url] DEBUG ;;
       _check_rate_limit ;;
       content <- _make_request repair_url "POST" 30 ;;
       match content with
       | Some _ =>
           _log [Lit "Successfully triggered repair for: "; Str name] SUCCESS ;;
           ret true
       | None =>
           _log [Lit "Failed to trigger repair for: "; Str name] ERROR ;;
           ret false
       end)
    (fun e =>
       _log [Lit "Error triggering repair for '"; Str name; Lit "': "; ExcText e] ERROR ;;
       ret false).

Section monitor.

(** Two functions are taken as given: [bytes.decode('utf-8',
    errors='ignore')] of the Python runtime, and the category extractor
    [_parse_torrents_from_html(content, state)], of which only the result
    matters here (its TRACE and DEBUG log lines are not part of the trace). *)
Variable decode : list Byte.byte -> string.
Variable _parse_torrents_from_html : string -> string -> list TorrentInfo.

(** [state_name] of [get_torrents_by_state] *)
Definition state_name (state : string) : string :=
  if String.eqb state "status_broken" then "broken" else "under repair".

(** [get_torrents_by_state(state)] *)
Definition get_torrents_by_state (state : string) : M (option (list TorrentInfo)) :=
  let state_name := state_name state in
  try_except
    (m <- get_self ;;
     _log [Lit "Fetching "; Str state_name; Lit " torrents from Zurg..."] DEBUG ;;
     let url := zurg_url (config m) +:+ "/manage/?state=" +:+ state in
     _check_rate_limit ;;
     content <- _make_request url "GET" 30 ;;
     match content with
     | None =>
         _log [Lit "Failed to fetch "; Str state_name; Lit " torrents page"] ERROR ;;
         ret None
     | Some content =>
         let html_content := decode content in
         _log [Lit "Successfully fetched "; Str state_name; Lit " torrents page (";
               Int (Z.of_nat (String.length html_content)); Lit " bytes)"] DEBUG ;;
         let torrents := _parse_torrents_from_html html_content state in
         ret (Some torrents)
     end)
    (fun e =>
       _log [Lit "Error getting "; Str state_name; Lit " torrents: "; ExcText e] ERROR ;;
       _log [Lit "Stack trace: "; Traceback e] TRACE ;;
       ret None).

(** [get_total_torrent_stats]; the one-entry dictionary
    [{"total_torrents": n}] it returns is the number [n]. *)
Definition get_total_torrent_stats : M (option Z) :=
  try_except
    (m <- get_self ;;
     _log [Lit "Fetching total torrent statistics..."] DEBUG ;;
     let url := zurg_url (config m) +:+ "/manage/" in
     _check_rate_limit ;;
     content <- _make_request url "GET" 30 ;;
     match content with
     | None =>
         _log [Lit "Failed to fetch torrents page"] ERROR ;;
         ret None
     | Some content =>
         let html_content := decode content in
         _log [Lit "Successfully fetched torrents page (";
               Int (Z.of_nat (String.length html_content)); Lit " bytes)"] DEBUG ;;
         let total_torrents := count_total html_content in
         _log [Lit "Found "; Int total_torrents; Lit " total torrent(s)"] DEBUG ;;
         ret (Some total_torrents)
     end)
    (fun e =>
       _log [Lit "Error getting total torrent stats: "; ExcText e] ERROR ;;
       _log [Lit "Stack trace: "; Traceback e] TRACE ;;
       ret None).

(** *** The check cycle *)

Definition line72 : string := str_mul "=" 72.

(** [round((n / total) * 100, 2) if total > 0 else 0] *)
Definition pct (n total : Z) : Part :=
  if (0 <? total)%Z then Pct n total 2 else Int 0.

(** [show_check_summary] *)
Definition show_check_summary : M unit :=
  let lines := [""; line72; "  CHECK SUMMARY"; line72; ""] in
  for_each lines (fun line => _log [Str line] OUTPUT) ;;
  st <- get_stats ;;
  let cc := current_check st in
  (if (0 <? total_torrents cc)%Z then
     _log [Lit "TORRENT STATISTICS:"] OUTPUT ;;
     _log [Lit "  Total Torrents:            "; Int (total_torrents cc)] OUTPUT ;;
     let total := total_torrents cc in
     let ok_pct := pct (ok_torrents cc) total in
     let broken_pct := pct (cs_broken_found cc) total in
     let repair_pct := pct (cs_under_repair_found cc) total in
     _log [Lit "  OK Torrents:               "; Int (ok_torrents cc);
           Lit " ("; ok_pct; Lit "%)"] OUTPUT ;;
     _log [Lit "  Broken:                    "; Int (cs_broken_found cc);
           Lit " ("; broken_pct; Lit "%)"] OUTPUT ;;
     _log [Lit "  Under Repair:              "; Int (cs_under_repair_found cc);
           Lit " ("; repair_pct; Lit "%)"] OUTPUT ;;
     _log [Lit ""] OUTPUT
   else ret tt) ;;
  _log [Lit "CURRENT CHECK RESULTS:"] OUTPUT ;;
  _log [Lit "  Broken Torrents:           "; Int (cs_broken_found cc)] OUTPUT ;;
  _log [Lit "  Under Repair:              "; Int (cs_under_repair_found cc)] OUTPUT ;;
  _log [Lit "  Repairs Triggered:         "; Int (cs_repairs_triggered cc)] OUTPUT ;;
  (if list_truthy (broken_names cc) then
     _log [Lit ""] OUTPUT ;;
     _log [Lit "  Broken Torrents:"] OUTPUT ;;
     for_each (broken_names cc) (fun name => _log [Lit "    - "; Str name] OUTPUT)
   else ret tt) ;;
  (if list_truthy (under_repair_names cc) then
     _log [Lit ""] OUTPUT ;;
     _log [Lit "  Under Repair:"] OUTPUT ;;
     for_each (under_repair_names cc) (fun name => _log [Lit "    - "; Str name] OUTPUT)
   else ret tt) ;;
  (if list_truthy (previous_check_triggered st) then
     _log [Lit ""] OUTPUT ;;
     _log [Lit "COMPARISON WITH PREVIOUS CHECK:"] OUTPUT ;;
     let repaired := repaired st in
     let moved_to_repair := moved_to_repair st in
     let still_broken := still_broken st in
     let still_under_repair := still_under_repair st in
     let new_broken := new_broken st in
     _log [Lit "  Successfully Repaired:     "; Int repaired] OUTPUT ;;
     _log [Lit "  Moved to Repair:           "; Int moved_to_repair] OUTPUT ;;
     _log [Lit "  Still Broken:              "; Int still_broken] OUTPUT ;;
     _log [Lit "  Still Under Repair:        "; Int still_under_repair] OUTPUT ;;
     _log [Lit "  New Broken:                "; Int new_broken] OUTPUT ;;
     if (0 <? len (previous_check_triggered st))%Z then
       _log [Lit "  Repair Success Rate:       ";
             Pct repaired (len (previous_check_triggered st)) 1; Lit "%"] OUTPUT
     else ret tt
   else ret tt) ;;
  _log [Lit ""] OUTPUT ;;
  _log [Str line72] OUTPUT ;;
  _log [Lit ""] OUTPUT.

(** Lines 542-557 of [perform_check]: the reset of the current check and
    the three fetches.  The result is the pair [(broken_torrents,
    under_repair_torrents)]. *)
Definition fetch_phase : M (option (list TorrentInfo) * option (list TorrentInfo)) :=
  _log [Lit ""] INFO ;;
  _log [Lit "Starting torrent status check..."] INFO ;;
  modify_stats (fun st => with_current_check st CheckStats_new) ;;
  total_stats <- get_total_torrent_stats ;;
  match total_stats with
  | Some total =>
      modify_check (fun c => with_cs_gauges c total (ok_torrents c))
  | None => ret tt
  end ;;
  broken_torrents <- get_torrents_by_state "status_broken" ;;
  under_repair_torrents <- get_torrents_by_state "status_under_repair" ;;
  ret (broken_torrents, under_repair_torrents).

(** The two display loops of [perform_check] (lines 613-616 and 622-625),
    which also fill the identifier and name lists of the current check. *)
Definition display_broken (broken_torrents : list TorrentInfo) : M unit :=
  for_each broken_torrents (fun torrent =>
    _log [Lit "  - "; Str (name torrent)] WARN ;;
    modify_check (fun c =>
      with_cs_lists c (broken_hashes c ++ [hash torrent]) (broken_names c)
                    (under_repair_hashes c) (under_repair_names c)) ;;
    modify_check (fun c =>
      with_cs_lists c (broken_hashes c) (broken_names c ++ [name torrent])
                    (under_repair_hashes c) (under_repair_names c))).

Definition display_under_repair (under_repair_torrents : list TorrentInfo) : M unit :=
  for_each under_repair_torrents (fun torrent =>
    _log [Lit "  - "; Str (name torrent)] INFO ;;
    modify_check (fun c =>
      with_cs_lists c (broken_hashes c) (broken_names c)
                    (under_repair_hashes c ++ [hash torrent]) (under_repair_names c)) ;;
    modify_check (fun c =>
      with_cs_lists c (broken_hashes c) (broken_names c)
                    (under_repair_hashes c) (under_repair_names c ++ [name torrent]))).

(** The two trigger loops of [perform_check] (lines 648-653 and 660-665)
    share their body. *)
Definition trigger_all (torrents : list TorrentInfo) : M unit :=
  for_each torrents (fun torrent =>
    success <- trigger_repair (hash torrent) (name torrent) ;;
    (if success then
       modify_check (fun c => with_cs_repairs_triggered c (cs_repairs_triggered c + 1)) ;;
       modify_stats (fun st =>
         with_counters st (total_checks st) (broken_found st) (under_repair_found st)
                       (repairs_triggered st + 1))
     else ret tt) ;;
    time_sleep (1 # 2)).

(** [self.stats.total_checks += 1; self.stats.last_check = datetime.now()] *)
Definition count_check : M unit :=
  modify_stats (fun st =>
    with_counters st (total_checks st + 1) (broken_found st) (under_repair_found st)
                  (repairs_triggered st)) ;;
  now <- datetime_now ;;
  modify_stats (fun st => with_times st (Some now) (last_broken_found st)).

(** Lines 581-678 of [perform_check]: the cycle proper, on the two lists. *)
Definition process (broken_torrents under_repair_torrents : list TorrentInfo) : M unit :=
  count_check ;;
  (if list_truthy broken_torrents then
     modify_check (fun c => with_cs_broken_found c (len broken_torrents)) ;;
     modify_stats (fun st =>
       with_counters st (total_checks st) (broken_found st + len broken_torrents)
                     (under_repair_found st) (repairs_triggered st)) ;;
     if (0 <? len broken_torrents)%Z then
       now <- datetime_now ;;
       modify_stats (fun st => with_times st (last_check st) (Some now))
     else ret tt
   else ret tt) ;;
  (if list_truthy under_repair_torrents then
     modify_check (fun c => with_cs_under_repair_found c (len under_repair_torrents)) ;;
     modify_stats (fun st =>
       with_counters st (total_checks st) (broken_found st)
                     (under_repair_found st + len under_repair_torrents)
                     (repairs_triggered st))
   else ret tt) ;;
  st <- get_stats ;;
  (if (0 <? total_torrents (current_check st))%Z then
     modify_check (fun c =>
       with_cs_gauges c (total_torrents c)
         (total_torrents c - cs_broken_found c - cs_under_repair_found c))
   else ret tt) ;;
  st <- get_stats ;;
  _log [Lit "Found "; Int (cs_broken_found (current_check st)); Lit " broken torrent(s)"] INFO ;;
  _log [Lit "Found "; Int (cs_under_repair_found (current_check st));
        Lit " under repair torrent(s)"] INFO ;;
  (if list_truthy broken_torrents && (0 <? len broken_torrents)%Z then
     _log [Lit ""] INFO ;;
     _log [Lit "BROKEN TORRENTS:"] WARN ;;
     display_broken broken_torrents
   else ret tt) ;;
  (if list_truthy under_repair_torrents && (0 <? len under_repair_torrents)%Z then
     _log [Lit ""] INFO ;;
     _log [Lit "UNDER REPAIR:"] INFO ;;
     display_under_repair under_repair_torrents
   else ret tt) ;;
  if (negb (list_truthy broken_torrents) || (len broken_torrents =? 0)%Z) &&
     (negb (list_truthy under_repair_torrents) || (len under_repair_torrents =? 0)%Z) then
    _log [Lit ""] SUCCESS ;;
    _log [Lit "✓ No broken or under repair torrents found - library is healthy!"] SUCCESS ;;
    _log [Lit "Torrent status check completed"] INFO ;;
    show_check_summary ;;
    modify_stats (fun st =>
      with_previous st (broken_hashes (current_check st))
                    (under_repair_hashes (current_check st)) [])
  else
    _log [Lit ""] INFO ;;
    m <- get_self ;;
    let mode_text := if dry_run m then "Would trigger" else "Triggering" in
    _log [Str mode_text; Lit " repairs..."] INFO ;;
    (if list_truthy broken_torrents && (0 <? len broken_torrents)%Z then
       trigger_all broken_torrents
     else ret tt) ;;
    (if list_truthy under_repair_torrents && (0 <? len under_repair_torrents)%Z then
       _log [Lit ""] INFO ;;
       let re_trigger_text := if dry_run m then "Would re-trigger" else "Re-triggering" in
       _log [Str re_trigger_text; Lit " repairs for under repair torrents..."] INFO ;;
       trigger_all under_repair_torrents
     else ret tt) ;;
    _log [Lit ""] INFO ;;
    _log [Lit "Torrent status check completed"] INFO ;;
    show_check_summary ;;
    modify_stats (fun st =>
      with_previous st (broken_hashes (current_check st))
                    (under_repair_hashes (current_check st))
                    (broken_hashes (current_check st) ++
                     under_repair_hashes (current_check st))).

(** [is not None] *)
Definition is_not_None {A} (o : option A) : bool :=
  match o with Some _ => true | None => false end.

(** Lines 559-579 of [perform_check]: what the cycle does with the two
    fetch results before it goes on with [process]. *)
Definition reconcile (fetched : option (list TorrentInfo) * option (list TorrentInfo)) : M unit :=
  let '(broken_torrents, under_repair_torrents) := fetched in
  let broken_api_success := is_not_None broken_torrents in
  let under_repair_api_success := is_not_None under_repair_torrents in
  if negb broken_api_success && negb under_repair_api_success then
    _log [Lit "Failed to retrieve torrent status - API calls failed"] ERROR ;;
    count_check
  else
    broken_torrents <-
      (if negb broken_api_success then
         _log [Lit "Warning: Failed to fetch broken torrents, continuing with under repair check"] WARN ;;
         ret []
       else ret (default [] broken_torrents)) ;;
    under_repair_torrents <-
      (if negb under_repair_api_success then
         _log [Lit "Warning: Failed to fetch under repair torrents, continuing with broken check"] WARN ;;
         ret []
       else ret (default [] under_repair_torrents)) ;;
    process broken_torrents under_repair_torrents.

(** [perform_check] *)
Definition perform_check : M unit :=
  fetched <- fetch_phase ;;
  reconcile fetched.

(** *** Scheduler *)

Definition VERSION : string := "1.0.0".
Definition SCRIPT_NAME : string := "Zurg Broken Torrent Monitor".

(** [_log_banner(text)] *)
Definition _log_banner (text : string) : M unit :=
  let line := line72 in
  _log [Lit ""] OUTPUT ;;
  _log [Str line] OUTPUT ;;
  _log [Lit "  "; Str text] OUTPUT ;;
  _log [Str line] OUTPUT ;;
  _log [Lit ""] OUTPUT.

(** [t.strftime(...) if t else "Never"] *)
Definition strftime_or_never (t : option Q) : Part :=
  match t with
  | Some t => Time t
  | None => Lit "Never"
  end.

(** [show_overall_statistics] *)
Definition show_overall_statistics : M unit :=
  let line := line72 in
  _log [Lit ""] OUTPUT ;;
  _log [Str line] OUTPUT ;;
  _log [Lit "  OVERALL STATISTICS"] OUTPUT ;;
  _log [Str line] OUTPUT ;;
  _log [Lit ""] OUTPUT ;;
  st <- get_stats ;;
  let last_check := strftime_or_never (last_check st) in
  let last_broken := strftime_or_never (last_broken_found st) in
  _log [Lit "Total Checks Performed:    "; Int (total_checks st)] OUTPUT ;;
  _log [Lit "Total Broken Found:        "; Int (broken_found st)] OUTPUT ;;
  _log [Lit "Total Under Repair Found:  "; Int (under_repair_found st)] OUTPUT ;;
  _log [Lit "Total Repairs Triggered:   "; Int (repairs_triggered st)] OUTPUT ;;
  _log [Lit "Last Check:                "; last_check] OUTPUT ;;
  _log [Lit "Last Broken Found:         "; last_broken] OUTPUT ;;
  _log [Lit ""] OUTPUT ;;
  _log [Str line] OUTPUT.

(** The start-up lines common to [run_once] and [run_continuous], up to
    the connectivity probe; [continuous] adds the interval line. *)
Definition log_startup (continuous : bool) : M unit :=
  _log_banner (SCRIPT_NAME +:+ " v" +:+ VERSION) ;;
  m <- get_self ;;
  _log [Lit "Starting "; Str SCRIPT_NAME] INFO ;;
  _log [Lit "Zurg URL: "; Str (zurg_url (config m))] INFO ;;
  (if continuous then
     _log [Lit "Check Interval: "; Int (check_interval (config m)); Lit " minutes"] INFO
   else ret tt) ;;
  _log [Lit "Log File: "; Str (log_file (config m))] INFO ;;
  let auth_status := if str_truthy (username (config m)) then "Enabled" else "Disabled" in
  _log [Lit "Authentication: "; Str auth_status] INFO ;;
  (if dry_run m then
     _log [Lit "DRY RUN MODE: No repairs will be triggered"] WARN
   else ret tt) ;;
  _log [Lit ""] INFO.

(** [run_once] *)
Definition run_once : M Z :=
  log_startup false ;;
  ok <- test_connection ;;
  if negb ok then
    _log [Lit "Cannot connect to Zurg - exiting"] ERROR ;;
    ret 1
  else
    _log [Lit ""] OUTPUT ;;
    _log [Lit "Running in single-check mode"] INFO ;;
    perform_check ;;
    _log [Lit ""] OUTPUT ;;
    show_overall_statistics ;;
    ret 0.

(** The names bound at module level when a method runs: the imports, the
    two constants, the classes and the two functions. *)
Definition module_globals : list string :=
  ["argparse"; "base64"; "configparser"; "json"; "logging"; "os"; "re"; "sys";
   "time"; "dataclass"; "field"; "datetime"; "Enum"; "unescape";
   "RotatingFileHandler"; "Path"; "Dict"; "List"; "Optional"; "Set"; "quote";
   "urllib"; "HTTPResponse"; "VERSION"; "SCRIPT_NAME"; "LogLevel"; "Colors";
   "TorrentInfo"; "CheckStats"; "OverallStats"; "ZurgMonitor"; "load_config";
   "main"].

(** Evaluating a bare name that is neither local nor a builtin. *)
Definition load_global (name : string) : M unit :=
  if bool_decide (name ∈ module_globals) then ret tt else raise (NameError name).

(** The body of [while True:] repeats until an exception ends it.  The
    environment delivers the interrupt signal during an inter-cycle sleep:
    [sleeps_completed] of them run to their end before that. *)
Fixpoint monitoring_loop (sleeps_completed : nat) : M unit :=
  perform_check ;;
  m <- get_self ;;
  _log [Lit ""] OUTPUT ;;
  _log [Lit "Next check in "; Int (check_interval (config m)); Lit " minutes..."] OUTPUT ;;
  _log [Str line72] OUTPUT ;;
  _log [Lit ""] OUTPUT ;;
  match sleeps_completed with
  | O => raise KeyboardInterrupt
  | S n => time_sleep (inject_Z (check_interval (config m) * 60)) ;; monitoring_loop n
  end.

(** The two [except] clauses of [run_continuous]. *)
Definition loop_handler (e : Exn) : M unit :=
  match e with
  | KeyboardInterrupt =>
      _log [Lit ""] WARN ;;
      _log [Lit "Monitoring loop interrupted by user"] WARN
  | e => _log [Lit "Monitoring loop interrupted: "; ExcText e] WARN
  end.

(** [try: body / except ...: handler e], every exception being caught. *)
Definition try_catch_all (body : M unit) (handler : Exn -> M unit) : M unit := fun s =>
  let r := body s in
  match outcome r with
  | Return _ => r
  | Raise e =>
      let r' := handler e (final r) in
      mkRun (outcome r') (final r') (events r ++ events r')
  end.

(** [try: body / finally: fin] where [fin] ends in a [return]: the block
    runs however [body] ended, and its own outcome (the value returned or
    the exception it raised) replaces that of [body]. *)
Definition finally_return {A B} (body : M A) (fin : M B) : M B := fun s =>
  let r := body s in
  let r' := fin (final r) in
  mkRun (outcome r') (final r') (events r ++ events r').

(** [run_continuous].  In the [finally] block the second argument of the
    last [_log] call is the bare name [LogLevelOUTPUT]. *)
Definition run_continuous (sleeps_completed : nat) : M Z :=
  log_startup true ;;
  ok <- test_connection ;;
  if negb ok then
    _log [Lit "Cannot connect to Zurg - exiting"] ERROR ;;
    ret 1
  else
    _log [Lit ""] OUTPUT ;;
    _log [Lit "Starting continuous monitoring loop (press Ctrl+C to stop)"] OUTPUT ;;
    _log [Lit ""] OUTPUT ;;
    finally_return
      (try_catch_all (monitoring_loop sleeps_completed) loop_handler)
      (_log [Lit ""] OUTPUT ;;
       show_overall_statistics ;;
       load_global "LogLevelOUTPUT" ;;
       _log [Lit "Monitoring stopped"] OUTPUT ;;
       ret 0).

End monitor.

(** ** Command line and entry point *)

(** The [argparse] namespace. *)
Record Args := {
  a_config : option string;
  a_zurg_url : option string;
  a_username : option string;
  a_password : option string;
  a_check_interval : option Z;
  a_log_file : option string;
  a_run_once : bool;
  a_verbose : bool;
  a_trace : bool;
  a_debug : bool;
  a_dry_run : bool;
  a_rate_limit : option Z;
}.

(** Truthiness of an optional argument. *)
Definition opt_str (o : option string) : bool :=
  match o with Some s => str_truthy s | None => false end.

Definition opt_int (o : option Z) : bool :=
  match o with Some n => int_truthy n | None => false end.

(** Lines 931-951 of [load_config]: the command line overrides [base], the
    dictionary built from the defaults and the configuration file. *)
Definition load_config (base : Config) (args : Args) : Config :=
  {| zurg_url := if opt_str (a_zurg_url args) then default "" (a_zurg_url args)
                 else zurg_url base;
     username := if opt_str (a_username args) then default "" (a_username args)
                 else username base;
     password := if opt_str (a_password args) then default "" (a_password args)
                 else password base;
     check_interval := if opt_int (a_check_interval args)
                       then default 0 (a_check_interval args)
                       else check_interval base;
     log_file := if opt_str (a_log_file args) then default "" (a_log_file args)
                 else log_file base;
     cfg_rate_limit_requests := if opt_int (a_rate_limit args)
                                then default 0 (a_rate_limit args)
                                else cfg_rate_limit_requests base;
     cfg_rate_limit_delay := cfg_rate_limit_delay base;
     rate_limit_backoff := rate_limit_backoff base;
     verbose := if a_verbose args then true else verbose base;
     trace := a_trace args;
     debug := a_debug args || a_trace args |}.

(** [if args.check_interval and args.check_interval < 1] *)
Definition check_interval_rejected (args : Args) : bool :=
  opt_int (a_check_interval args) && (default 0 (a_check_interval args) <? 1)%Z.

(** [main], from the parsed arguments on. *)
Definition main (decode : list Byte.byte -> string)
    (_parse_torrents_from_html : string -> string -> list TorrentInfo)
    (base : Config) (args : Args) (sleeps_completed : nat) (w : World)
    : Outcome Z * list Event :=
  if check_interval_rejected args then
    (Return 1, [EvPrint [Lit "Error: Check interval must be at least 1 minute"]])
  else
    let config := load_config base args in
    let monitor := ZurgMonitor_new config (a_dry_run args) in
    let s := {| self := monitor; world := w |} in
    let r := if a_run_once args
             then run_once decode _parse_torrents_from_html s
             else run_continuous decode _parse_torrents_from_html sleeps_completed s in
    (outcome r, events r).

(** [sys.exit(main())]: the status is the value returned; an exception that
    leaves [main] ends the process with a traceback and status 1 (an
    interrupt: with the status of a process killed by the signal). *)
Definition exit_status (o : Outcome Z) : Z :=
  match o with
  | Return n => n
  | Raise KeyboardInterrupt => 130
  | Raise _ => 1
  end.

(** ** Reading a trace *)

(** [trigger_repair] announces every call in the log file, whatever the
    verbosity: the name it was called with. *)
Definition announced (e : Event) : option string :=
  match e with
  | EvFile logging_INFO [Lit l; Str n] =>
      if String.eqb l "Triggering repair for torrent: " ||
         String.eqb l "[DRY RUN] Would trigger repair for: "
      then Some n else None
  | _ => None
  end.

Definition triggers (tr : list Event) : list string := omap announced tr.

(** The URLs of the state-changing requests of a trace. *)
Definition posted (e : Event) : option string :=
  match e with
  | EvRequest method url _ => if String.eqb method "POST" then Some url else None
  | _ => None
  end.

Definition posts (tr : list Event) : list string := omap posted tr.

(** The per-entity repair endpoint. *)
Definition repair_url (c : Config) (t : TorrentInfo) : string :=
  zurg_url c +:+ "/manage/" +:+ hash t +:+ "/repair".

(** What a rate-limited call leaves alone in [self]. *)
Definition static (m : ZurgMonitor) : Config * bool * OverallStats * Q * Z :=
  (config m, dry_run m, stats m, rate_limit_delay m, rate_limit_requests m).

(** The four cumulative counters, compared pointwise. *)
Definition counters_le (a b : OverallStats) : Prop :=
  total_checks a <= total_checks b /\
  broken_found a <= broken_found b /\
  under_repair_found a <= under_repair_found b /\
  repairs_triggered a <= repairs_triggered b.

(** ** Instances for the examples *)

(** Decoding of an ASCII body. *)
Definition decode_ascii (content : list Byte.byte) : string :=
  string_of_list_byte content.

(** An extractor for listings whose rows carry nothing but the identifier:
    one record per [data-hash] attribute, named by the last resort of the
    name chain. *)
Definition rows_only (content state : string) : list TorrentInfo :=
  map (fun h => {| hash := h; name := "Unknown (" +:+ h +:+ ")"; state := state |})
      (remove_dups (map lower (finditer data_hash_before data_hash_after content 0))).

Definition no_args : Args :=
  {| a_config := None; a_zurg_url := None; a_username := None; a_password := None;
     a_check_interval := None; a_log_file := None; a_run_once := false;
     a_verbose := false; a_trace := false; a_debug := false; a_dry_run := false;
     a_rate_limit := None |}.

Definition with_check_interval (args : Args) (i : option Z) : Args :=
  {| a_config := a_config args; a_zurg_url := a_zurg_url args;
     a_username := a_username args; a_password := a_password args;
     a_check_interval := i; a_log_file := a_log_file args;
     a_run_once := a_run_once args; a_verbose := a_verbose args;
     a_trace := a_trace args; a_debug := a_debug args;
     a_dry_run := a_dry_run args; a_rate_limit := a_rate_limit args |}.

Definition hash_a : string := str_mul "a" 40.
Definition hash_b : string := str_mul "b" 40.

(** A row of the listing carrying identifier [h]. *)
Definition row (h : string) : string :=
  "<tr data-hash=" +:+ dquote +:+ h +:+ dquote +:+ "></tr>".

(** A world whose answers are the bodies [pages], in this order, and
    failures afterwards. *)
Definition serving (pages : list string) : World :=
  {| net := fun n => match pages !! n with
                     | Some p => Body (list_byte_of_string p)
                     | None => URLError "Connection refused"
                     end;
     sent := 0; clock := 0 |}.

(** ** Vocabulary of the proofs *)

(** Weakest precondition: [Q] holds of the outcome, the final state and
    the trace of running [m] from [s]. *)
Definition wp {A} (m : M A) (s : State)
    (Q : Outcome A -> State -> list Event -> Prop) : Prop :=
  Q (outcome (m s)) (final (m s)) (events (m s)).

(** A trace in which no repair is announced and no request changes the
    remote state. *)
Definition quiet (tr : list Event) : Prop := triggers tr = [] /\ posts tr = [].

(** What a delay or a read-only request leaves alone: everything in [self]
    but the request counter, and the answers still to come. *)
Definition same_but_count (s s' : State) : Prop :=
  static (self s') = static (self s) /\ net (world s') = net (world s).

(** [Optional[bytes]] returned by [_make_request] for an answer. *)
Definition content_of (r : Response) : option (list Byte.byte) :=
  match r with
  | Body content => Some content
  | _ => None
  end.

(** The answer the environment gives to the next request. *)
Definition next_response (s : State) : Response := net (world s) (sent (world s)).

(** [if content:] and [if content is not None] on that answer. *)
Definition body_nonempty (r : Response) : bool :=
  match r with
  | Body (_ :: _) => true
  | _ => false
  end.

Definition body_received (r : Response) : bool :=
  match r with
  | Body _ => true
  | _ => false
  end.

(** The rate limiter can sleep: neither configured duration is negative. *)
Definition delays_ok (m : ZurgMonitor) : Prop :=
  (0 <= rate_limit_delay m)%Q /\ (0 <= rate_limit_backoff (config m))%Q.

(** What the check cycle never changes once the monitor is built, and the
    answers still to come. *)
Definition frame (s s' : State) : Prop :=
  config (self s') = config (self s) /\
  dry_run (self s') = dry_run (self s) /\
  rate_limit_delay (self s') = rate_limit_delay (self s) /\
  rate_limit_requests (self s') = rate_limit_requests (self s) /\
  net (world s') = net (world s).

(** [k] successful triggers counted in both repair counters. *)
Definition bump (k : Z) (st : OverallStats) : OverallStats :=
  with_current_check
    (with_counters st (total_checks st) (broken_found st) (under_repair_found st)
                   (repairs_triggered st + k))
    (with_cs_repairs_triggered (current_check st)
       (cs_repairs_triggered (current_check st) + k)).

(** The statistics a cycle that fetched [bl] and [ul] leaves behind, as one
    record: [now] is the clock at the start of the processing and [k] the
    number of triggers that succeeded. *)
Definition processed (bl ul : list TorrentInfo) (now : Q) (k : Z)
    (st : OverallStats) : OverallStats :=
  let cc := current_check st in
  let b := if list_truthy bl then len bl else cs_broken_found cc in
  let u := if list_truthy ul then len ul else cs_under_repair_found cc in
  {| total_checks := total_checks st + 1;
     broken_found := broken_found st + len bl;
     under_repair_found := under_repair_found st + len ul;
     repairs_triggered := repairs_triggered st + k;
     last_check := Some now;
     last_broken_found := if list_truthy bl then Some now else last_broken_found st;
     current_check :=
       {| cs_broken_found := b;
          cs_under_repair_found := u;
          cs_repairs_triggered := cs_repairs_triggered cc + k;
          broken_hashes := broken_hashes cc ++ map hash bl;
          broken_names := broken_names cc ++ map name bl;
          under_repair_hashes := under_repair_hashes cc ++ map hash ul;
          under_repair_names := under_repair_names cc ++ map name ul;
          total_torrents := total_torrents cc;
          ok_torrents := if (0 <? total_torrents cc)%Z
                         then total_torrents cc - b - u
                         else ok_torrents cc |};
     previous_check_broken := broken_hashes cc ++ map hash bl;
     previous_check_under_repair := under_repair_hashes cc ++ map hash ul;
     previous_check_triggered :=
       if list_truthy bl || list_truthy ul
       then (broken_hashes cc ++ map hash bl) ++ (under_repair_hashes cc ++ map hash ul)
       else [] |}.

(** A message that reached both the log file and the console at a level
    that no verbosity setting filters. *)
Definition logged (tr : list Event) (level : LogLevel) (message : Message) : Prop :=
  EvFile (level_map level) message ∈ tr /\ EvConsole level message ∈ tr.

Definition warning_broken : Message :=
  [Lit "Warning: Failed to fetch broken torrents, continuing with under repair check"].

Definition warning_under_repair : Message :=
  [Lit "Warning: Failed to fetch under repair torrents, continuing with broken check"].

Definition error_both : Message :=
  [Lit "Failed to retrieve torrent status - API calls failed"].

(** The statistics after a cycle in which both fetches failed. *)
Definition aborted (now : Q) (st : OverallStats) : OverallStats :=
  with_times
    (with_counters st (total_checks st + 1) (broken_found st) (under_repair_found st)
                   (repairs_triggered st))
    (Some now) (last_broken_found st).

(** The statistics at the end of the fetch phase: the current check is
    fresh but for the total [n] (which is [0] when the total was not
    fetched). *)
Definition reset_check (st : OverallStats) (n : Z) : OverallStats :=
  with_current_check st (with_cs_gauges CheckStats_new n 0).


(** ** Identifiers in a listing *)

(** Every character of [s] is in the class [[a-fA-F0-9]]. *)
Fixpoint all_hex (s : string) : bool :=
  match s with
  | EmptyString => true
  | String c s' => is_hex c && all_hex s'
  end.

(** A run of exactly 40 characters of that class. *)
Definition identifier (g : string) : Prop :=
  String.length g = 40%nat /\ all_hex g = true.

(** [g] is the value of a [data-hash="..."] attribute somewhere in [html]. *)
Definition data_hash_attribute (html g : string) : Prop :=
  exists pre post,
    html = pre +:+ data_hash_before +:+ g +:+ data_hash_after +:+ post /\
    identifier g.

(** [g] stands somewhere in [html], whatever surrounds it. *)
Definition occurs_anywhere (html g : string) : Prop :=
  exists pre post, html = pre +:+ g +:+ post /\ identifier g.

(** Group 1 of the pattern at every offset of [s], overlapping or not. *)
Fixpoint all_matches (before after s : string) : list string :=
  match s with
  | EmptyString => []
  | String _ s' =>
      match match_here before after s with
      | Some g => g :: all_matches before after s'
      | None => all_matches before after s'
      end
  end.

(** The [data-hash] pattern matches at none of the first [k] offsets of [s]. *)
Fixpoint no_match (k : nat) (s : string) : Prop :=
  match k with
  | O => True
  | S k' =>
      match_here data_hash_before data_hash_after s = None /\
      match s with
      | EmptyString => True
      | String _ s' => no_match k' s'
      end
  end.

(** [s] begins with the first three characters of [data-hash]. *)
Definition starts_dat (s : string) : bool :=
  match s with
  | String c1 (String c2 (String c3 _)) =>
      Ascii.eqb "d" c1 && Ascii.eqb "a" c2 && Ascii.eqb "t" c3
  | _ => false
  end.

(** A link to the management page of identifier [h], the form the
    extractor's last pattern looks for. *)
Definition manage_link (h : string) : string :=
  "<a " +:+ manage_link_before +:+ h +:+ manage_link_after +:+ ">x</a>".

(** ** Sample runs *)

(** A listing of two rows, and an empty one. *)
Definition listing : string := "<table>" +:+ row hash_a +:+ row hash_b +:+ "</table>".
Definition empty_listing : string := "<table></table>".

(** The monitor as [main] builds it from the defaults, facing world [w]. *)
Definition fresh (w : World) : State := start (default_config "/opt") false w.

(** A monitor between two checks: the previous check triggered repairs for
    [hash_a] and [hash_b]; now [hash_b] is under repair and [hash_a] is gone. *)
Definition second_check : State :=
  {| self :=
       {| config := default_config "/opt"; dry_run := false;
          stats := with_previous
                     (with_current_check OverallStats_new
                        (with_cs_lists CheckStats_new [] [] [hash_b] ["b"]))
                     [hash_a; hash_b] [] [hash_a; hash_b];
          rate_limit_delay := 1 # 2; rate_limit_requests := 10;
          request_count := 0 |};
     world := unreachable |}.

(** The command line [--check-interval 0 --run-once]. *)
Definition zero_interval_once : Args :=
  {| a_config := None; a_zurg_url := None; a_username := None; a_password := None;
     a_check_interval := Some 0; a_log_file := None; a_run_once := true;
     a_verbose := false; a_trace := false; a_debug := false; a_dry_run := false;
     a_rate_limit := None |}.

(** ** More vocabulary *)

(** The requests of a trace, in order: method, URL and timeout. *)
Definition requested (e : Event) : option (string * string * Z) :=
  match e with
  | EvRequest method url timeout => Some (method, url, timeout)
  | _ => None
  end.

Definition requests (tr : list Event) : list (string * string * Z) := omap requested tr.


(** [s] with the request counter advanced by [k]. *)
Definition counted (k : Z) (s : State) : State :=
  {| self := set_request_count (self s) (request_count (self s) + k);
     world := world s |}.

(** How many of the [count] requests sent from number [from] on are
    answered with a body. *)
Fixpoint answered (net : nat -> Response) (from count : nat) : Z :=
  match count with
  | O => 0
  | S count' =>
      (if body_received (net from) then 1 else 0) + answered net (S from) count'
  end.

(** ** Regular expressions *)

(** The patterns of [_parse_torrents_from_html] are sequences of literal
    text, a character class repeated greedily ([[...]*]) or a fixed number
    of times ([[...]{n}]), and the brackets of group 1. *)
Inductive Item :=
| Text (lit : string)
| Star (class : ascii -> bool)
| Exactly (n : nat) (class : ascii -> bool)
| GroupOpen
| GroupClose.

Definition Pattern := list Item.

(** A match of a pattern at the head of a string: where it ends and where
    group 1 lies, counted in characters from the start of the match. *)
Record Found := {
  m_end : nat;
  g_start : nat;
  g_end : nat;
}.

(** The backtracking matcher of [re], item by item: [k] matches the rest
    of the pattern; [pos] counts the characters consumed so far. *)
Section backtracking.

Variable k : string -> nat -> option Found.

Fixpoint match_text (lit s : string) (pos : nat) : option Found :=
  match lit with
  | EmptyString => k s pos
  | String c lit' =>
      match s with
      | String d s' => if Ascii.eqb c d then match_text lit' s' (S pos) else None
      | EmptyString => None
      end
  end.

Fixpoint match_exactly (n : nat) (class : ascii -> bool) (s : string) (pos : nat)
    : option Found :=
  match n with
  | O => k s pos
  | S n' =>
      match s with
      | String c s' => if class c then match_exactly n' class s' (S pos) else None
      | EmptyString => None
      end
  end.

(** A greedy repetition takes as many characters as it can and gives them
    back one by one while the rest of the pattern fails. *)
Fixpoint match_star (class : ascii -> bool) (s : string) (pos : nat) : option Found :=
  match s with
  | String c s' =>
      if class c then
        match match_star class s' (S pos) with
        | Some m => Some m
        | None => k s pos
        end
      else k s pos
  | EmptyString => k s pos
  end.

End backtracking.

Fixpoint match_items (p : Pattern) (gs ge : nat) (s : string) (pos : nat) : option Found :=
  match p with
  | [] => Some {| m_end := pos; g_start := gs; g_end := ge |}
  | Text lit :: p' => match_text (match_items p' gs ge) lit s pos
  | Star class :: p' => match_star (match_items p' gs ge) class s pos
  | Exactly n class :: p' => match_exactly (match_items p' gs ge) n class s pos
  | GroupOpen :: p' => match_items p' pos ge s pos
  | GroupClose :: p' => match_items p' gs pos s pos
  end.

(** [pattern.match] at the head of [s]. *)
Definition match_at (p : Pattern) (s : string) : option Found := match_items p 0 0 s 0.

(** A match object: [match.start()], [match.end()] and [match.group(1)]. *)
Record MatchObject := {
  m_start : nat;
  m_stop : nat;
  group_1 : string;
}.

(** [re.finditer(pattern, content)]: the matches from left to right, the
    scan resuming where the previous match ended ([skip] characters of it
    are still to be passed; [pos] is the offset of [s] in [content]).  No
    pattern here matches the empty string. *)
Fixpoint scan (p : Pattern) (s : string) (pos skip : nat) : list MatchObject :=
  match s with
  | EmptyString => []
  | String _ s' =>
      match skip with
      | S n => scan p s' (S pos) n
      | O =>
          match match_at p s with
          | Some m =>
              {| m_start := pos; m_stop := pos + m_end m;
                 group_1 := substring (g_start m) (g_end m - g_start m) s |}
              :: scan p s' (S pos) (m_end m - 1)
          | None => scan p s' (S pos) 0
          end
      end
  end.

Definition re_finditer (p : Pattern) (content : string) : list MatchObject :=
  scan p content 0 0.

(** [[^c]] *)
Definition not_char (c : ascii) : ascii -> bool := fun d => negb (Ascii.eqb d c).

(** ** The category extractor *)

(** [content[a:b]] for offsets within the string, and
    [content.find(sub, start)] with [None] for [-1]. *)
Definition slice (content : string) (a b : nat) : string := substring a (b - a) content.

Definition find (content sub : string) (start : nat) : option nat :=
  index start sub content.

(** [row_pattern = r'<tr[^>]*data-hash="([a-fA-F0-9]{40})"[^>]*>'] *)
Definition row_pattern : Pattern :=
  [Text "<tr"; Star (not_char ">"); Text ("data-hash=" +:+ dquote);
   GroupOpen; Exactly 40 is_hex; GroupClose;
   Text dquote; Star (not_char ">"); Text ">"].

(** [hash_pattern = r'href="/manage/([a-fA-F0-9]{40})/"'] *)
Definition link_pattern : Pattern :=
  [Text manage_link_before; GroupOpen; Exactly 40 is_hex; GroupClose;
   Text manage_link_after].

(** The text handed to [_extract_torrent_name] for a row: from the start
    of the match to the next [</tr>], or 2000 characters when there is
    none. *)
Definition row_content (content : string) (m : MatchObject) : string :=
  let row_start := m_start m in
  let row_end :=
    match find content "</tr>" row_start with
    | Some row_end => row_end
    | None => Nat.min (String.length content) (row_start + 2000)
    end in
  slice content row_start row_end.

(** The text handed to it for a link: 1000 characters on either side. *)
Definition link_context (content : string) (m : MatchObject) : string :=
  let context_start := (m_start m - 1000)%nat in
  let context_end := Nat.min (String.length content) (m_stop m + 1000) in
  slice content context_start context_end.

Section extractor.

(** [_extract_torrent_name(content, hash_value)] is taken as given (it
    rests on [html.unescape]); of [_parse_torrents_from_html] the result is
    modelled, not its TRACE and DEBUG log lines. *)
Variable _extract_torrent_name : string -> string -> string.

(** The body of both loops: [torrents] and [processed_hashes] after one
    more match. *)
Definition add_torrent (state : string) (window : MatchObject -> string)
    (acc : list TorrentInfo * gset string) (m : MatchObject)
    : list TorrentInfo * gset string :=
  let '(torrents, processed_hashes) := acc in
  let hash_value := lower (group_1 m) in
  if bool_decide (hash_value ∈ processed_hashes) then acc
  else
    let torrent_name := _extract_torrent_name (window m) hash_value in
    (torrents ++ [{| hash := hash_value; name := torrent_name; state := state |}],
     {[hash_value]} ∪ processed_hashes).

(** [_parse_torrents_from_html(content, state)] *)
Definition _parse_torrents_from_html (content state : string) : list TorrentInfo :=
  let row_matches := re_finditer row_pattern content in
  let '(torrents, processed_hashes) :=
    fold_left (add_torrent state (row_content content)) row_matches ([], ∅) in
  let row_count := length row_matches in
  if (row_count =? 0)%nat then
    let hash_matches := re_finditer link_pattern content in
    fst (fold_left (add_torrent state (link_context content)) hash_matches
           (torrents, processed_hashes))
  else torrents.

End extractor.

(** Every character of [s] is in [class]. *)
Fixpoint all_of (class : ascii -> bool) (s : string) : bool :=
  match s with
  | EmptyString => true
  | String c s' => class c && all_of class s'
  end.


(** [t] with its state replaced. *)
Definition with_state (state : string) (t : TorrentInfo) : TorrentInfo :=
  {| hash := hash t; name := name t; state := state |}.

(** The identifier lists of the statistics hold no identifier twice. *)
Definition duplicate_free (st : OverallStats) : Prop :=
  NoDup (broken_hashes (current_check st)) /\
  NoDup (under_repair_hashes (current_check st)) /\
  NoDup (previous_check_broken st) /\
  NoDup (previous_check_under_repair st).

(** ** More sample runs *)

(** The defaults with the three numbers a configuration file sets for the
    rate limiter and the scheduler. *)
Definition tuned (requests : Z) (delay : Q) (interval : Z) : Config :=
  {| zurg_url := "http://localhost:9999";
     username := "";
     password := "";
     check_interval := interval;
     log_file := "/opt/logs/zurg-monitor.log";
     cfg_rate_limit_requests := requests;
     cfg_rate_limit_delay := delay;
     rate_limit_backoff := 5;
     verbose := false;
     trace := false;
     debug := false |}.

(** The defaults with credentials. *)
Definition with_user (user pass : string) : Config :=
  {| zurg_url := "http://localhost:9999";
     username := user;
     password := pass;
     check_interval := 30;
     log_file := "/opt/logs/zurg-monitor.log";
     cfg_rate_limit_requests := 10;
     cfg_rate_limit_delay := 1 # 2;
     rate_limit_backoff := 5;
     verbose := false;
     trace := false;
     debug := false |}.

(** The monitor of [second_check], facing world [w]. *)
Definition second_check_on (w : World) : State :=
  {| self := self second_check; world := w |}.

(** A name extractor that answers with the identifier. *)
Definition name_by_hash (content hash_value : string) : string := hash_value.
(** * Properties *)

(** ** Running a computation *)

Lemma bind_return {A B} (m : M A) (k : A -> M B) s a :
  outcome (m s) = Return a ->
  bind m k s =
  mkRun (outcome (k a (final (m s)))) (final (k a (final (m s))))
        (events (m s) ++ events (k a (final (m s)))).
Proof. intros H. unfold bind. by rewrite H. Qed.

(** ** Rate limiter *)





(** ** Weakest preconditions *)

Lemma wp_ret {A} (a : A) s Q : Q (Return a) s [] -> wp (ret a) s Q.
Proof. intros H; exact H. Qed.

Lemma wp_raise {A} e s (Q : Outcome A -> State -> list Event -> Prop) :
  Q (Raise e) s [] -> wp (raise e) s Q.
Proof. intros H; exact H. Qed.

Lemma wp_bind {A B} (m : M A) (k : A -> M B) s
    (Q : Outcome B -> State -> list Event -> Prop) :
  wp m s (fun o s1 t1 =>
    match o with
    | Return a => wp (k a) s1 (fun o' s2 t2 => Q o' s2 (t1 ++ t2))
    | Raise e => Q (Raise e) s1 t1
    end) ->
  wp (bind m k) s Q.
Proof. unfold wp, bind. destruct (outcome (m s)); intros H; exact H. Qed.

Lemma wp_try_except {A} (body : M A) handler s
    (Q : Outcome A -> State -> list Event -> Prop) :
  wp body s (fun o s1 t1 =>
    match o with
    | Return a => Q (Return a) s1 t1
    | Raise e =>
        if is_Exception e
        then wp (handler e) s1 (fun o' s2 t2 => Q o' s2 (t1 ++ t2))
        else Q (Raise e) s1 t1
    end) ->
  wp (try_except body handler) s Q.
Proof.
  unfold wp, try_except. destruct (outcome (body s)) as [a|e] eqn:E.
  - rewrite E. done.
  - destruct (is_Exception e); [done|]. rewrite E. done.
Qed.

Lemma wp_log msg lvl s Q :
  Q (Return tt) s (log_events (config (self s)) msg lvl) -> wp (_log msg lvl) s Q.
Proof. intros H; exact H. Qed.

Lemma wp_get_self s Q : Q (Return (self s)) s [] -> wp get_self s Q.
Proof. intros H; exact H. Qed.

Lemma wp_get_stats s Q : Q (Return (stats (self s))) s [] -> wp get_stats s Q.
Proof. intros H; exact H. Qed.

Lemma wp_put_self m s Q :
  Q (Return tt) {| self := m; world := world s |} [] -> wp (put_self m) s Q.
Proof. intros H; exact H. Qed.

Lemma wp_datetime_now s Q : Q (Return (clock (world s))) s [] -> wp datetime_now s Q.
Proof. intros H; exact H. Qed.

Lemma wp_modify_stats f s Q :
  Q (Return tt) {| self := set_stats (self s) (f (stats (self s))); world := world s |} [] ->
  wp (modify_stats f) s Q.
Proof. intros H; exact H. Qed.

Lemma wp_modify_check f s Q :
  Q (Return tt)
    {| self := set_stats (self s)
                 (with_current_check (stats (self s)) (f (current_check (stats (self s)))));
       world := world s |} [] ->
  wp (modify_check f) s Q.
Proof. intros H; exact H. Qed.

Lemma wp_urlopen_read method url timeout s Q :
  Q (Return (next_response s))
    {| self := self s;
       world := {| net := net (world s); sent := S (sent (world s));
                   clock := clock (world s) |} |}
    [EvRequest method url timeout] ->
  wp (urlopen_read method url timeout) s Q.
Proof. intros H; exact H. Qed.

Lemma wp_time_sleep d s Q :
  ((0 <= d)%Q ->
   Q (Return tt)
     {| self := self s;
        world := {| net := net (world s); sent := sent (world s);
                    clock := (clock (world s) + d)%Q |} |}
     [EvSleep d]) ->
  (forall msg, ~ (0 <= d)%Q -> Q (Raise (ValueError msg)) s []) ->
  wp (time_sleep d) s Q.
Proof.
  intros H1 H2. unfold wp, time_sleep.
  destruct (Qle_bool 0 d) eqn:E; cbn.
  - apply H1. by apply Qle_bool_iff.
  - apply H2. intros H. apply Qle_bool_iff in H. congruence.
Qed.

(** From a fact about a run to a weakest precondition and back. *)
Lemma wp_of_run {A} (m : M A) s (Q : Outcome A -> State -> list Event -> Prop) :
  Q (outcome (m s)) (final (m s)) (events (m s)) <-> wp m s Q.
Proof. reflexivity. Qed.

Ltac wp_simpl :=
  cbv beta iota zeta;
  cbn [app self world net sent clock config dry_run stats rate_limit_delay
       rate_limit_requests request_count set_request_count set_stats].

Ltac wp_step :=
  lazymatch goal with
  | |- wp (bind _ _) _ _ => apply wp_bind
  | |- wp (ret _) _ _ => apply wp_ret
  | |- wp (raise _) _ _ => apply wp_raise
  | |- wp (try_except _ _) _ _ => apply wp_try_except
  | |- wp (_log _ _) _ _ => apply wp_log
  | |- wp get_self _ _ => apply wp_get_self
  | |- wp get_stats _ _ => apply wp_get_stats
  | |- wp (put_self _) _ _ => apply wp_put_self
  | |- wp datetime_now _ _ => apply wp_datetime_now
  | |- wp (modify_stats _) _ _ => apply wp_modify_stats
  | |- wp (modify_check _) _ _ => apply wp_modify_check
  | |- wp (urlopen_read _ _ _) _ _ => apply wp_urlopen_read
  end; wp_simpl.

(** ** Reading traces *)

Lemma triggers_app t1 t2 : triggers (t1 ++ t2) = triggers t1 ++ triggers t2.
Proof. apply omap_app. Qed.

Lemma posts_app t1 t2 : posts (t1 ++ t2) = posts t1 ++ posts t2.
Proof. apply omap_app. Qed.

Lemma quiet_nil : quiet [].
Proof. done. Qed.

Lemma quiet_app t1 t2 : quiet t1 -> quiet t2 -> quiet (t1 ++ t2).
Proof.
  intros [H1 H2] [H3 H4]. split.
  - by rewrite triggers_app, H1, H3.
  - by rewrite posts_app, H2, H4.
Qed.

Lemma posts_log c msg lvl : posts (log_events c msg lvl) = [].
Proof.
  unfold log_events. by destruct (should_log c lvl), (should_print c lvl).
Qed.

Lemma triggers_log c msg lvl :
  announced (EvFile (level_map lvl) msg) = None ->
  triggers (log_events c msg lvl) = [].
Proof.
  intros H. unfold log_events, triggers.
  destruct (should_log c lvl), (should_print c lvl); cbn -[announced]; by rewrite ?H.
Qed.

Lemma quiet_log c msg lvl :
  announced (EvFile (level_map lvl) msg) = None -> quiet (log_events c msg lvl).
Proof. intros H. split; [by apply triggers_log | apply posts_log]. Qed.

Lemma quiet_sleep d : quiet [EvSleep d].
Proof. done. Qed.

Lemma quiet_get url timeout : quiet [EvRequest "GET" url timeout].
Proof. done. Qed.

Create HintDb quiet.
#[local] Hint Resolve quiet_nil quiet_app quiet_sleep quiet_get : quiet.
#[local] Hint Extern 1 (quiet (log_events _ _ _)) => (apply quiet_log; reflexivity) : quiet.

Lemma quiet_cons_sleep d t : quiet t -> quiet (EvSleep d :: t).
Proof. intros [? ?]. by split. Qed.

(** Closes [quiet] goals on traces assembled from quiet pieces. *)
Ltac quiet_solve :=
  repeat first
    [ assumption
    | apply quiet_nil
    | apply quiet_log; reflexivity
    | apply quiet_sleep
    | apply quiet_get
    | apply quiet_cons_sleep
    | match goal with |- quiet (_ ++ _) => apply quiet_app end ].

Lemma same_but_count_refl s : same_but_count s s.
Proof. done. Qed.

Lemma same_but_count_trans s1 s2 s3 :
  same_but_count s1 s2 -> same_but_count s2 s3 -> same_but_count s1 s3.
Proof. intros [H1 H2] [H3 H4]. split; congruence. Qed.

#[local] Hint Resolve same_but_count_refl : quiet.

(** ** Rate limiter and requests: what they leave alone *)

Lemma check_rate_limit_spec s Q :
  (forall o s' t,
     same_but_count s s' -> sent (world s') = sent (world s) -> quiet t ->
     (forall e, o = Raise e -> is_Exception e = true) ->
     (delays_ok (self s) -> o = Return tt) ->
     Q o s' t) ->
  wp _check_rate_limit s Q.
Proof.
  intros HQ. unfold _check_rate_limit.
  repeat wp_step.
  destruct (Z.leb _ _).
  - repeat wp_step. apply wp_time_sleep.
    + intros Hd. repeat wp_step.
      apply HQ; [split; reflexivity | reflexivity | quiet_solve | intros e [=] | reflexivity].
    + intros msg Hd.
      apply HQ; [split; reflexivity | reflexivity | quiet_solve | intros e [= <-]; reflexivity
                | intros []; contradiction].
  - apply wp_time_sleep.
    + intros Hd.
      apply HQ; [split; reflexivity | reflexivity | quiet_solve | intros e [=] | reflexivity].
    + intros msg Hd.
      apply HQ; [split; reflexivity | reflexivity | quiet_solve | intros e [= <-]; reflexivity
                | intros []; contradiction].
Qed.

Lemma triggers_request method url timeout l :
  triggers (EvRequest method url timeout :: l) = triggers l.
Proof. reflexivity. Qed.

Lemma posts_request method url timeout l :
  posts (EvRequest method url timeout :: l) =
  (if String.eqb method "POST" then [url] else []) ++ posts l.
Proof. unfold posts. cbn. by destruct (String.eqb method "POST"). Qed.

Lemma triggers_sleep d l : triggers (EvSleep d :: l) = triggers l.
Proof. reflexivity. Qed.

Lemma posts_sleep d l : posts (EvSleep d :: l) = posts l.
Proof. reflexivity. Qed.

Lemma triggers_nil : triggers [] = [].
Proof. reflexivity. Qed.

Lemma posts_nil : posts [] = [].
Proof. reflexivity. Qed.

(** Normalises [triggers] and [posts] of a trace built from log lines,
    sleeps and requests. *)
Ltac trace_simpl :=
  repeat first
    [ rewrite triggers_app | rewrite posts_app | rewrite posts_log
    | rewrite triggers_request | rewrite posts_request
    | rewrite triggers_sleep | rewrite posts_sleep
    | rewrite triggers_nil | rewrite posts_nil
    | rewrite triggers_log by reflexivity
    | rewrite app_nil_r | rewrite app_nil_l ].

Lemma make_request_spec url method timeout s Q :
  (forall t,
     triggers t = [] ->
     posts t = (if String.eqb method "POST" then [url] else []) ->
     Q (Return (content_of (next_response s)))
       {| self := self s;
          world := {| net := net (world s); sent := S (sent (world s));
                      clock := clock (world s) |} |} t) ->
  wp (_make_request url method timeout) s Q.
Proof.
  intros HQ. unfold _make_request, _get_auth_headers. unfold next_response in HQ.
  repeat wp_step.
  destruct (str_truthy _ && str_truthy _); repeat wp_step; unfold next_response;
    destruct (net (world s) (sent (world s))); repeat wp_step; cbn [content_of] in HQ;
    apply HQ; trace_simpl; reflexivity.
Qed.


Lemma triggers_announce c n :
  triggers (log_events c [Lit "Triggering repair for torrent: "; Str n] INFO) = [n].
Proof. unfold log_events. cbn. by destruct (verbose c || debug c || trace c). Qed.

Lemma triggers_announce_dry c n :
  triggers (log_events c [Lit "[DRY RUN] Would trigger repair for: "; Str n] INFO) = [n].
Proof. unfold log_events. cbn. by destruct (verbose c || debug c || trace c). Qed.

Lemma next_response_same s s' :
  same_but_count s s' -> sent (world s') = sent (world s) ->
  next_response s' = next_response s.
Proof. intros [_ Hn] Hs. unfold next_response. by rewrite Hn, Hs. Qed.

Lemma same_but_count_static s s' :
  same_but_count s s' ->
  config (self s') = config (self s) /\ dry_run (self s') = dry_run (self s) /\
  stats (self s') = stats (self s) /\
  rate_limit_delay (self s') = rate_limit_delay (self s) /\
  rate_limit_requests (self s') = rate_limit_requests (self s).
Proof. intros [H _]. unfold static in H. by injection H. Qed.

(** Uses the facts at hand about the traces of the steps already run. *)
Ltac trace_hyps :=
  repeat match goal with
  | H : quiet _ |- _ => destruct H as [? ?]
  end;
  repeat first
    [ progress trace_simpl
    | rewrite triggers_announce | rewrite triggers_announce_dry
    | match goal with
      | H : triggers ?t = _ |- context [triggers ?t] => rewrite H
      | H : posts ?t = _ |- context [posts ?t] => rewrite H
      end ].

(** [trigger_repair] always returns, announces the entity once, and leaves
    the statistics alone; outside dry-run mode, when the rate limiter can
    sleep, it posts once to the repair endpoint and succeeds exactly when a
    body, empty or not, comes back. *)
Lemma trigger_repair_spec h n s Q :
  (forall b s' t,
     same_but_count s s' ->
     triggers t = [n] ->
     posts t `sublist_of` [zurg_url (config (self s)) +:+ "/manage/" +:+ h +:+ "/repair"] ->
     (dry_run (self s) = true -> b = true /\ posts t = []) ->
     (dry_run (self s) = false -> delays_ok (self s) ->
        b = body_received (next_response s) /\
        posts t = [zurg_url (config (self s)) +:+ "/manage/" +:+ h +:+ "/repair"]) ->
     Q (Return b) s' t) ->
  wp (trigger_repair h n) s Q.
Proof.
  intros HQ. unfold trigger_repair. repeat wp_step.
  destruct (dry_run (self s)) eqn:Hdry.
  - repeat wp_step.
    apply HQ; [done | by trace_hyps | trace_hyps; apply sublist_nil_l
              | intros _; split; [done | by trace_hyps] | done].
  - repeat wp_step. apply check_rate_limit_spec.
    intros o s1 t1 Hsame Hsent Hq Hexc Hok. destruct o as [[]|e].
    + repeat wp_step. apply make_request_spec. intros t2 Ht2 Hp2.
      rewrite (next_response_same _ _ Hsame Hsent).
      destruct (same_but_count_static _ _ Hsame) as (Hc & _).
      destruct (next_response s); cbn [content_of]; repeat wp_step; rewrite ?Hc.
      all: apply HQ;
        [ destruct Hsame; split; done
        | by trace_hyps
        | by trace_hyps
        | done
        | intros _ _; split; [reflexivity | by trace_hyps] ].
    + rewrite (Hexc e eq_refl). repeat wp_step.
      apply HQ; [done | by trace_hyps | trace_hyps; apply sublist_nil_l | done | ].
      intros _ Hd. specialize (Hok Hd). done.
Qed.

Section fetching.

Variable decode : list Byte.byte -> string.
Variable _parse_torrents_from_html : string -> string -> list TorrentInfo.

Lemma count_total_nonneg html : 0 <= count_total html.
Proof. unfold count_total. lia. Qed.

(** [get_total_torrent_stats] always returns; it counts the identifiers of
    the decoded body when the request yields one. *)
Lemma get_total_torrent_stats_spec s Q :
  (forall r s' t,
     same_but_count s s' -> quiet t ->
     (forall n, r = Some n -> 0 <= n) ->
     (delays_ok (self s) ->
        r = (fun c => count_total (decode c)) <$> content_of (next_response s)) ->
     Q (Return r) s' t) ->
  wp (get_total_torrent_stats decode) s Q.
Proof.
  intros HQ. unfold get_total_torrent_stats. repeat wp_step.
  apply check_rate_limit_spec.
  intros o s1 t1 Hsame Hsent Hq Hexc Hok. destruct o as [[]|e].
  - repeat wp_step. apply make_request_spec. intros t2 Ht2 Hp2.
    rewrite (next_response_same _ _ Hsame Hsent).
    destruct (next_response s); cbn [content_of]; repeat wp_step.
    all: apply HQ;
      [ destruct Hsame; split; done
      | split; by trace_hyps
      | first [ intros n [= <-]; apply count_total_nonneg | intros n [=] ]
      | intros _; reflexivity ].
  - rewrite (Hexc e eq_refl). repeat wp_step.
    apply HQ; [done | split; by trace_hyps | intros n [=] | ].
    intros Hd. specialize (Hok Hd). done.
Qed.

(** [get_torrents_by_state] always returns; it is the extractor applied to
    the decoded body when the request yields one. *)
Lemma get_torrents_by_state_spec st s Q :
  (forall r s' t,
     same_but_count s s' -> quiet t ->
     (delays_ok (self s) ->
        r = (fun c => _parse_torrents_from_html (decode c) st) <$>
              content_of (next_response s)) ->
     Q (Return r) s' t) ->
  wp (get_torrents_by_state decode _parse_torrents_from_html st) s Q.
Proof.
  intros HQ. unfold get_torrents_by_state. repeat wp_step.
  apply check_rate_limit_spec.
  intros o s1 t1 Hsame Hsent Hq Hexc Hok. destruct o as [[]|e].
  - repeat wp_step. apply make_request_spec. intros t2 Ht2 Hp2.
    rewrite (next_response_same _ _ Hsame Hsent).
    destruct (next_response s); cbn [content_of]; repeat wp_step.
    all: apply HQ;
      [ destruct Hsame; split; done
      | split; by trace_hyps
      | intros _; reflexivity ].
  - rewrite (Hexc e eq_refl). repeat wp_step.
    apply HQ; [done | split; by trace_hyps | ].
    intros Hd. specialize (Hok Hd). done.
Qed.

End fetching.

Section cycle.

Variable decode : list Byte.byte -> string.
Variable parse : string -> string -> list TorrentInfo.

(** The fetch phase always returns a pair; it resets the current check,
    records the total when it could be fetched, and touches nothing else
    in the statistics. *)
Lemma fetch_phase_spec s Q :
  (forall b u s' t n,
     0 <= n ->
     static (self s') =
       static (set_stats (self s)
                 (with_current_check (stats (self s)) (with_cs_gauges CheckStats_new n 0))) ->
     net (world s') = net (world s) ->
     quiet t ->
     Q (Return (b, u)) s' t) ->
  wp (fetch_phase decode parse) s Q.
Proof.
  intros HQ. unfold fetch_phase. repeat wp_step.
  apply get_total_torrent_stats_spec. intros r s1 t1 Hs1 Hq1 Hn _. wp_simpl.
  apply wp_bind.
  assert (Hrest : forall s1' Q',
            (forall b u s3 t, same_but_count s1' s3 -> quiet t -> Q' (Return (b, u)) s3 t) ->
            wp (broken_torrents <- get_torrents_by_state decode parse "status_broken" ;;
                under_repair_torrents <-
                  get_torrents_by_state decode parse "status_under_repair" ;;
                ret (broken_torrents, under_repair_torrents)) s1' Q').
  { intros s1' Q' HQ'. repeat wp_step.
    apply get_torrents_by_state_spec. intros b s2 t2 Hs2 Hq2 _. repeat wp_step.
    apply get_torrents_by_state_spec. intros u s3 t3 Hs3 Hq3 _. repeat wp_step.
    apply HQ'; [eapply same_but_count_trans; eassumption | quiet_solve]. }
  destruct r as [total|].
  - wp_step. apply Hrest. intros b u s3 t3 Hs3 Hq3.
    apply (HQ b u _ _ total); [by apply Hn | | | quiet_solve].
    + destruct Hs1 as [Hs1 _], Hs3 as [Hs3 _]. rewrite Hs3. unfold static in *. cbn in *.
      injection Hs1 as -> -> -> -> ->. reflexivity.
    + destruct Hs1 as [_ Hs1], Hs3 as [_ Hs3]. rewrite Hs3. exact Hs1.
  - wp_step. apply Hrest. intros b u s3 t3 Hs3 Hq3.
    apply (HQ b u _ _ 0); [done | | | quiet_solve].
    + destruct Hs1 as [Hs1 _], Hs3 as [Hs3 _]. rewrite Hs3. exact Hs1.
    + destruct Hs1 as [_ Hs1], Hs3 as [_ Hs3]. rewrite Hs3. exact Hs1.
Qed.

End cycle.

(** ** The loops of the check cycle *)

Lemma frame_refl s : frame s s.
Proof. by repeat split. Qed.

Lemma frame_trans s1 s2 s3 : frame s1 s2 -> frame s2 s3 -> frame s1 s3.
Proof. unfold frame. intros (?&?&?&?&?) (?&?&?&?&?). repeat split; congruence. Qed.

Lemma same_but_count_frame s s' : same_but_count s s' -> frame s s'.
Proof.
  intros H. destruct (same_but_count_static _ _ H) as (?&?&?&?&?). destruct H as [_ ?].
  by repeat split.
Qed.

Lemma display_broken_spec l s Q :
  (forall s' t,
     frame s s' -> world s' = world s ->
     stats (self s') =
       with_current_check (stats (self s))
         (with_cs_lists (current_check (stats (self s)))
            (broken_hashes (current_check (stats (self s))) ++ map hash l)
            (broken_names (current_check (stats (self s))) ++ map name l)
            (under_repair_hashes (current_check (stats (self s))))
            (under_repair_names (current_check (stats (self s))))) ->
     quiet t ->
     Q (Return tt) s' t) ->
  wp (display_broken l) s Q.
Proof.
  revert s Q. induction l as [|x l IH]; intros s Q HQ.
  - apply wp_ret. apply HQ; [apply frame_refl | done | | done].
    cbn [map]. rewrite !app_nil_r. by destruct (stats (self s)) as [? ? ? ? ? ? [] ? ? ?].
  - unfold display_broken. cbn [for_each]. fold (display_broken l). repeat wp_step.
    apply IH. intros s' t Hf Hw Hst Hq. apply HQ.
    + destruct Hf as (?&?&?&?&?). by repeat split.
    + done.
    + rewrite Hst. cbn. by rewrite <- !app_assoc.
    + quiet_solve.
Qed.

Lemma display_under_repair_spec l s Q :
  (forall s' t,
     frame s s' -> world s' = world s ->
     stats (self s') =
       with_current_check (stats (self s))
         (with_cs_lists (current_check (stats (self s)))
            (broken_hashes (current_check (stats (self s))))
            (broken_names (current_check (stats (self s))))
            (under_repair_hashes (current_check (stats (self s))) ++ map hash l)
            (under_repair_names (current_check (stats (self s))) ++ map name l)) ->
     quiet t ->
     Q (Return tt) s' t) ->
  wp (display_under_repair l) s Q.
Proof.
  revert s Q. induction l as [|x l IH]; intros s Q HQ.
  - apply wp_ret. apply HQ; [apply frame_refl | done | | done].
    cbn [map]. rewrite !app_nil_r. by destruct (stats (self s)) as [? ? ? ? ? ? [] ? ? ?].
  - unfold display_under_repair. cbn [for_each]. fold (display_under_repair l).
    repeat wp_step.
    apply IH. intros s' t Hf Hw Hst Hq. apply HQ.
    + destruct Hf as (?&?&?&?&?). by repeat split.
    + done.
    + rewrite Hst. cbn. by rewrite <- !app_assoc.
    + quiet_solve.
Qed.

Lemma bump_0 st : bump 0 st = st.
Proof.
  destruct st as [? ? ? ? ? ? [] ? ? ?]. unfold bump. cbn. by rewrite !Z.add_0_r.
Qed.

Lemma bump_bump a b st : bump a (bump b st) = bump (b + a) st.
Proof.
  destruct st as [? ? ? ? ? ? [] ? ? ?]. unfold bump. cbn. by rewrite !Z.add_assoc.
Qed.

Lemma len_cons {A} (x : A) l : len (x :: l) = len l + 1.
Proof. unfold len. cbn [length]. lia. Qed.

Lemma len_nonneg {A} (l : list A) : 0 <= len l.
Proof. unfold len. lia. Qed.

(** The trigger loop calls [trigger_repair] once for every entity, in
    order, and counts the successes in both repair counters. *)
Lemma trigger_all_spec l s Q :
  (forall s' t k,
     frame s s' ->
     0 <= k <= len l ->
     stats (self s') = bump k (stats (self s)) ->
     triggers t = map name l ->
     posts t `sublist_of` map (repair_url (config (self s))) l ->
     (dry_run (self s) = true -> posts t = [] /\ k = len l) ->
     (dry_run (self s) = false -> delays_ok (self s) ->
        posts t = map (repair_url (config (self s))) l) ->
     Q (Return tt) s' t) ->
  wp (trigger_all l) s Q.
Proof.
  revert s Q. induction l as [|x l IH]; intros s Q HQ.
  - apply wp_ret.
    apply (HQ s [] 0); [apply frame_refl | done | by rewrite bump_0 | done | done | done | done].
  - unfold trigger_all. cbn [for_each]. fold (trigger_all l). repeat wp_step.
    apply trigger_repair_spec. intros b s1 t1 Hs1 Ht1 Hsub1 Hdry Hreal. wp_simpl.
    pose proof (same_but_count_frame _ _ Hs1) as Hf1.
    destruct (same_but_count_static _ _ Hs1) as (Hc1 & Hd1 & Hst1 & Hdel1 & Hreq1).
    assert (Hfin : forall s2 k0 s' t k,
              frame s s2 -> stats (self s2) = bump k0 (stats (self s)) ->
              (k0 = 0 \/ k0 = 1) -> (dry_run (self s) = true -> k0 = 1) ->
              frame s2 s' ->
              0 <= k <= len l ->
              stats (self s') = bump k (stats (self s2)) ->
              triggers t = map name l ->
              posts t `sublist_of` map (repair_url (config (self s2))) l ->
              (dry_run (self s2) = true -> posts t = [] /\ k = len l) ->
              (dry_run (self s2) = false -> delays_ok (self s2) ->
                 posts t = map (repair_url (config (self s2))) l) ->
              Q (Return tt) s' ((t1 ++ [EvSleep (1 # 2)]) ++ t)).
    { intros s2 k0 s' t k Hf2 Hst2 Hk0 Hk0dry Hf Hk Hst Ht Hsub Hpd Hpr.
      pose proof (frame_trans _ _ _ Hf2 Hf) as Hf'.
      destruct Hf2 as (Hc2 & Hd2 & Hdel2 & Hreq2 & Hn2).
      apply (HQ s' _ (k0 + k)).
      - done.
      - rewrite len_cons. lia.
      - rewrite Hst, Hst2. apply bump_bump.
      - rewrite !triggers_app, Ht1, Ht. reflexivity.
      - rewrite !posts_app. cbn [posts omap posted]. rewrite app_nil_r. rewrite Hc2 in Hsub.
        by apply (sublist_app _ [_]).
      - intros Hdr. destruct (Hdry Hdr) as [_ Hp1]. rewrite Hd2 in Hpd.
        destruct (Hpd Hdr) as [Hp2 Hk2]. rewrite !posts_app, Hp1, Hp2.
        split; [done|]. rewrite len_cons, (Hk0dry Hdr). lia.
      - intros Hdr Hok. destruct (Hreal Hdr Hok) as [_ Hp1].
        rewrite Hd2, Hc2 in Hpr. unfold delays_ok in Hpr. rewrite Hdel2, Hc2 in Hpr.
        rewrite !posts_app, Hp1, (Hpr Hdr Hok). reflexivity. }
    destruct b.
    + repeat wp_step. apply wp_time_sleep; [intros _ | intros msg Hn; by destruct Hn].
      wp_simpl. apply IH. intros s' t k Hf Hk Hst Ht Hsub Hpd Hpr.
      eapply (Hfin _ 1 s' t k); [ | | by right | done | exact Hf | done | exact Hst | done
                                | exact Hsub | exact Hpd | exact Hpr ].
      * destruct Hf1 as (?&?&?&?&?). by repeat split.
      * cbn. rewrite Hst1. by destruct (stats (self s)) as [? ? ? ? ? ? [] ? ? ?].
    + repeat wp_step. apply wp_time_sleep; [intros _ | intros msg Hn; by destruct Hn].
      wp_simpl. apply IH. intros s' t k Hf Hk Hst Ht Hsub Hpd Hpr.
      eapply (Hfin _ 0 s' t k); [ | | by left | | exact Hf | done | exact Hst | done
                                | exact Hsub | exact Hpd | exact Hpr ].
      * destruct Hf1 as (?&?&?&?&?). by repeat split.
      * cbn. rewrite Hst1. by rewrite bump_0.
      * intros Hdr. by destruct (Hdry Hdr).
Qed.

(** ** The summary *)

Lemma for_each_log_spec {A} (l : list A) (f : A -> Message) lvl s Q :
  (forall x, announced (EvFile (level_map lvl) (f x)) = None) ->
  (forall t, quiet t -> Q (Return tt) s t) ->
  wp (for_each l (fun x => _log (f x) lvl)) s Q.
Proof.
  intros Hf. revert Q. induction l as [|x l IH]; intros Q HQ.
  - apply wp_ret. by apply HQ.
  - cbn [for_each]. repeat wp_step. apply IH. intros t Ht. apply HQ.
    apply quiet_app; [by apply quiet_log | done].
Qed.

Lemma show_check_summary_spec s Q :
  (forall t, quiet t -> Q (Return tt) s t) -> wp show_check_summary s Q.
Proof.
  intros HQ. unfold show_check_summary. wp_simpl. wp_step.
  apply for_each_log_spec; [done|]. intros t0 Ht0. repeat wp_step.
  destruct (0 <? total_torrents _); repeat wp_step.
  all: destruct (list_truthy (broken_names _)); repeat wp_step;
    [ apply for_each_log_spec; [done|]; intros t1 Ht1 | ]; repeat wp_step.
  all: destruct (list_truthy (under_repair_names _)); repeat wp_step;
    [ apply for_each_log_spec; [done|]; intros t2 Ht2 | ]; repeat wp_step.
  all: destruct (list_truthy (previous_check_triggered _)); repeat wp_step;
    [ destruct (0 <? len _); repeat wp_step | ].
  all: apply HQ; quiet_solve.
Qed.

Lemma show_overall_statistics_spec s Q :
  (forall t, quiet t -> Q (Return tt) s t) -> wp show_overall_statistics s Q.
Proof.
  intros HQ. unfold show_overall_statistics, strftime_or_never. repeat wp_step.
  destruct (last_check _), (last_broken_found _); apply HQ; quiet_solve.
Qed.

(** ** The cycle proper *)

Lemma len_pos {A} (x : A) l : (0 <? len (x :: l)) = true.
Proof. apply Z.ltb_lt. rewrite len_cons. pose proof (len_nonneg l). lia. Qed.

Lemma len_nonzero {A} (x : A) l : (len (x :: l) =? 0) = false.
Proof. apply Z.eqb_neq. rewrite len_cons. pose proof (len_nonneg l). lia. Qed.

Ltac stats_simpl :=
  cbn [with_counters with_times with_current_check with_previous with_cs_counts
       with_cs_broken_found with_cs_under_repair_found with_cs_repairs_triggered
       with_cs_lists with_cs_gauges
       total_checks broken_found under_repair_found repairs_triggered last_check
       last_broken_found current_check previous_check_broken
       previous_check_under_repair previous_check_triggered
       cs_broken_found cs_under_repair_found cs_repairs_triggered broken_hashes
       broken_names under_repair_hashes under_repair_names total_torrents ok_torrents].

Ltac stats_simpl_in H :=
  cbn [self stats set_stats
       with_counters with_times with_current_check with_previous with_cs_counts
       with_cs_broken_found with_cs_under_repair_found with_cs_repairs_triggered
       with_cs_lists with_cs_gauges
       total_checks broken_found under_repair_found repairs_triggered last_check
       last_broken_found current_check previous_check_broken
       previous_check_under_repair previous_check_triggered
       cs_broken_found cs_under_repair_found cs_repairs_triggered broken_hashes
       broken_names under_repair_hashes under_repair_names total_torrents ok_torrents]
    in H.

Ltac wp_run := repeat (wp_step; stats_simpl).

Ltac list_conds :=
  rewrite ?len_pos, ?len_nonzero; cbn [list_truthy negb andb orb].

Ltac frame_fields H :=
  let Hc := fresh "Hc" in let Hd := fresh "Hd" in let Hdel := fresh "Hdel" in
  let Hreq := fresh "Hreq" in let Hn := fresh "Hn" in
  destruct H as (Hc & Hd & Hdel & Hreq & Hn);
  cbn [self world net sent clock config dry_run stats rate_limit_delay
       rate_limit_requests request_count set_request_count set_stats] in Hc, Hd, Hdel, Hreq, Hn.

Ltac stats_goal :=
  cbn [self stats set_stats];
  repeat match goal with
  | H : stats (self ?s) = _ |- context [stats (self ?s)] => rewrite H
  end;
  unfold bump, processed; stats_simpl; list_conds; cbn [map app];
  rewrite ?app_nil_r, ?Z.add_0_r.

Lemma process_spec bl ul s Q :
  (forall s' t k,
     frame s s' ->
     0 <= k <= len bl + len ul ->
     stats (self s') = processed bl ul (clock (world s)) k (stats (self s)) ->
     triggers t = map name bl ++ map name ul ->
     posts t `sublist_of` map (repair_url (config (self s))) (bl ++ ul) ->
     (dry_run (self s) = true -> posts t = [] /\ k = len bl + len ul) ->
     (dry_run (self s) = false -> delays_ok (self s) ->
        posts t = map (repair_url (config (self s))) (bl ++ ul)) ->
     Q (Return tt) s' t) ->
  wp (process bl ul) s Q.
Proof.
  intros HQ.
  destruct s as [[c d [tc bf uf rt lc lb [cb cu cr bh bn uh un tot ok] pb pu pt] rd rr rc] w].
  unfold process, count_check. wp_run.
  destruct bl as [|x bl], ul as [|y ul]; list_conds; wp_run.
  - destruct (0 <? tot) eqn:Htot; wp_run.
    all: apply show_check_summary_spec; intros t Ht; wp_run.
    all: apply (HQ _ _ 0);
      [ by repeat split
      | done
      | stats_goal; rewrite ?Htot; reflexivity
      | by trace_hyps
      | trace_hyps; apply sublist_nil_l
      | intros _; split; [by trace_hyps | done]
      | intros _ _; by trace_hyps ].
  - destruct (0 <? tot) eqn:Htot; wp_run.
    all: apply display_under_repair_spec; intros s1 t1 Hf1 Hw1 Hst1 Hq1; wp_run.
    all: apply trigger_all_spec; intros s2 t2 k2 Hf2 Hk2 Hst2 Ht2 Hsub2 Hd2 Hr2; wp_run.
    all: apply show_check_summary_spec; intros t3 Hq3; wp_run.
    all: pose proof (frame_trans _ _ _ Hf1 Hf2) as Hf; frame_fields Hf1; frame_fields Hf2.
    all: stats_simpl_in Hst1.
    all: apply (HQ _ _ k2);
      [ exact Hf
      | change (len []) with 0; lia
      | stats_goal; rewrite ?Htot; reflexivity
      | by trace_hyps
      | rewrite Hc in Hsub2; by trace_hyps
      | intros Hdr; rewrite Hd in Hd2; destruct (Hd2 Hdr) as [Hp ->]; split; [by trace_hyps | done]
      | intros Hdr Hok; unfold delays_ok in Hr2, Hok; rewrite Hd, Hdel, Hc in Hr2;
        specialize (Hr2 Hdr Hok); by trace_hyps ].
  - destruct (0 <? tot) eqn:Htot; wp_run.
    all: apply display_broken_spec; intros s1 t1 Hf1 Hw1 Hst1 Hq1; wp_run.
    all: apply trigger_all_spec; intros s2 t2 k2 Hf2 Hk2 Hst2 Ht2 Hsub2 Hd2 Hr2; wp_run.
    all: apply show_check_summary_spec; intros t3 Hq3; wp_run.
    all: pose proof (frame_trans _ _ _ Hf1 Hf2) as Hf; frame_fields Hf1; frame_fields Hf2.
    all: stats_simpl_in Hst1.
    all: apply (HQ _ _ k2);
      [ exact Hf
      | change (len []) with 0; lia
      | stats_goal; rewrite ?Htot; reflexivity
      | cbn [map]; rewrite app_nil_r; by trace_hyps
      | rewrite Hc in Hsub2; rewrite app_nil_r; by trace_hyps
      | intros Hdr; rewrite Hd in Hd2; destruct (Hd2 Hdr) as [Hp ->];
        split; [by trace_hyps | change (len []) with 0; lia]
      | intros Hdr Hok; unfold delays_ok in Hr2, Hok; rewrite Hd, Hdel, Hc in Hr2;
        specialize (Hr2 Hdr Hok); rewrite app_nil_r; by trace_hyps ].
  - destruct (0 <? tot) eqn:Htot; wp_run.
    all: apply display_broken_spec; intros s1 t1 Hf1 Hw1 Hst1 Hq1; wp_run.
    all: apply display_under_repair_spec; intros s1' t1' Hf1' Hw1' Hst1' Hq1'; wp_run.
    all: apply trigger_all_spec; intros s2 t2 k2 Hf2 Hk2 Hst2 Ht2 Hsub2 Hd2 Hr2; wp_run.
    all: apply trigger_all_spec; intros s3 t3 k3 Hf3 Hk3 Hst3 Ht3 Hsub3 Hd3 Hr3; wp_run.
    all: apply show_check_summary_spec; intros t4 Hq4; wp_run.
    all: pose proof (frame_trans _ _ _ Hf1 Hf1') as Hfa;
      pose proof (frame_trans _ _ _ Hfa Hf2) as Hfb;
      pose proof (frame_trans _ _ _ Hfb Hf3) as Hf;
      frame_fields Hfa; frame_fields Hfb.
    all: stats_simpl_in Hst1.
    all: apply (HQ _ _ (k2 + k3));
      [ exact Hf
      | lia
      | stats_goal; rewrite ?Htot; rewrite ?Z.add_assoc; reflexivity
      | by trace_hyps
      | rewrite Hc in Hsub2; rewrite Hc0 in Hsub3; rewrite map_app; trace_hyps;
        by apply sublist_app
      | intros Hdr; rewrite Hd in Hd2; rewrite Hd0 in Hd3;
        destruct (Hd2 Hdr) as [Hp2 ->]; destruct (Hd3 Hdr) as [Hp3 ->];
        split; [by trace_hyps | done]
      | intros Hdr Hok; unfold delays_ok in Hr2, Hr3, Hok;
        rewrite Hd, Hdel, Hc in Hr2; rewrite Hd0, Hdel0, Hc0 in Hr3;
        specialize (Hr2 Hdr Hok); specialize (Hr3 Hdr Hok); rewrite map_app; by trace_hyps ].
Qed.


(** ** From the fetch results to the end of the cycle *)

Lemma logged_here c lvl msg t :
  should_log c lvl = true -> should_print c lvl = true ->
  logged (log_events c msg lvl ++ t) lvl msg.
Proof.
  intros H1 H2. unfold logged, log_events. rewrite H1, H2. cbn. split.
  - apply elem_of_cons. by left.
  - apply elem_of_cons. right. apply elem_of_cons. by left.
Qed.

Lemma logged_later t1 t2 lvl msg : logged t2 lvl msg -> logged (t1 ++ t2) lvl msg.
Proof. intros [H1 H2]. split; apply elem_of_app; by right. Qed.

Lemma reconcile_spec b u s Q :
  (b = None -> u = None ->
   forall s' t,
     frame s s' -> world s' = world s ->
     stats (self s') = aborted (clock (world s)) (stats (self s)) ->
     quiet t -> logged t ERROR error_both ->
     Q (Return tt) s' t) ->
  (is_not_None b || is_not_None u = true ->
   forall s' t k,
     frame s s' ->
     0 <= k <= len (default [] b) + len (default [] u) ->
     stats (self s') =
       processed (default [] b) (default [] u) (clock (world s)) k (stats (self s)) ->
     triggers t = map name (default [] b) ++ map name (default [] u) ->
     posts t `sublist_of`
       map (repair_url (config (self s))) (default [] b ++ default [] u) ->
     (dry_run (self s) = true ->
        posts t = [] /\ k = len (default [] b) + len (default [] u)) ->
     (dry_run (self s) = false -> delays_ok (self s) ->
        posts t = map (repair_url (config (self s))) (default [] b ++ default [] u)) ->
     (b = None -> logged t WARN warning_broken) ->
     (u = None -> logged t WARN warning_under_repair) ->
     Q (Return tt) s' t) ->
  wp (reconcile (b, u)) s Q.
Proof.
  intros Hfail Hgo. unfold reconcile.
  destruct b as [bl|], u as [ul|]; cbn [is_not_None negb andb orb default] in *.
  - clear Hfail. wp_run. apply process_spec. intros s' t k Hf Hk Hst Ht Hsub Hd Hr.
    apply (Hgo eq_refl s' t k); done.
  - clear Hfail. wp_run. apply process_spec. intros s' t k Hf Hk Hst Ht Hsub Hd Hr.
    apply (Hgo eq_refl s' _ k); [done | done | done | by trace_hyps | rewrite ?app_nil_r in Hsub; by trace_hyps | | | done | ].
    + intros Hdr; destruct (Hd Hdr); split; [by trace_hyps | done].
    + intros Hdr Hok; specialize (Hr Hdr Hok); by trace_hyps.
    + intros _. rewrite app_nil_r. by apply logged_here.
  - clear Hfail. wp_run. apply process_spec. intros s' t k Hf Hk Hst Ht Hsub Hd Hr.
    apply (Hgo eq_refl s' _ k); [done | done | done | by trace_hyps | rewrite ?app_nil_r in Hsub; by trace_hyps | | | | done].
    + intros Hdr; destruct (Hd Hdr); split; [by trace_hyps | done].
    + intros Hdr Hok; specialize (Hr Hdr Hok); by trace_hyps.
    + intros _. rewrite app_nil_r. by apply logged_here.
  - clear Hgo. unfold count_check. wp_run.
    apply (Hfail eq_refl eq_refl); [by repeat split | done | reflexivity | quiet_solve | ].
    by apply logged_here.
Qed.

(** ** A whole cycle *)

Section check.

Variable decode : list Byte.byte -> string.
Variable parse : string -> string -> list TorrentInfo.

Lemma fetch_phase_run s :
  exists b u n,
    outcome (fetch_phase decode parse s) = Return (b, u) /\
    0 <= n /\
    static (self (final (fetch_phase decode parse s))) =
      static (set_stats (self s) (reset_check (stats (self s)) n)) /\
    quiet (events (fetch_phase decode parse s)).
Proof.
  refine (_ : wp (fetch_phase decode parse) s (fun o s' t =>
              exists b u n, o = Return (b, u) /\ 0 <= n /\
                static (self s') = static (set_stats (self s) (reset_check (stats (self s)) n)) /\
                quiet t)).
  apply fetch_phase_spec. intros b u s' t n Hn Hst _ Hq. by exists b, u, n.
Qed.

(** Everything the later statements need about one cycle, given what the
    two category fetches returned. *)
Lemma perform_check_run s b u :
  outcome (fetch_phase decode parse s) = Return (b, u) ->
  let f := fetch_phase decode parse s in
  let r := perform_check decode parse s in
  let bl := default [] b in
  let ul := default [] u in
  exists n, 0 <= n /\
    outcome r = Return tt /\
    config (self (final r)) = config (self s) /\
    dry_run (self (final r)) = dry_run (self s) /\
    (b = None -> u = None ->
       stats (self (final r)) =
         aborted (clock (world (final r))) (reset_check (stats (self s)) n) /\
       quiet (events r) /\ logged (events r) ERROR error_both) /\
    (is_not_None b || is_not_None u = true ->
       exists k, 0 <= k <= len bl + len ul /\
         stats (self (final r)) =
           processed bl ul (clock (world (final f))) k (reset_check (stats (self s)) n) /\
         triggers (events r) = map name bl ++ map name ul /\
         posts (events r) `sublist_of` map (repair_url (config (self s))) (bl ++ ul) /\
         (dry_run (self s) = true -> posts (events r) = [] /\ k = len bl + len ul) /\
         (dry_run (self s) = false -> delays_ok (self s) ->
            posts (events r) = map (repair_url (config (self s))) (bl ++ ul)) /\
         (b = None -> logged (events r) WARN warning_broken) /\
         (u = None -> logged (events r) WARN warning_under_repair)).
Proof.
  intros Ho f r bl ul.
  destruct (fetch_phase_run s) as (b' & u' & n & Ho' & Hn & Hst & Hq).
  rewrite Ho in Ho'. injection Ho' as <- <-.
  exists n. split; [done|].
  subst r. unfold perform_check. rewrite (bind_return _ _ _ _ Ho).
  cbn [outcome final events]. fold f in Hst, Hq |- *.
  set (s1 := final f) in *. set (t1 := events f) in *.
  unfold static in Hst. cbn [config dry_run stats rate_limit_delay rate_limit_requests set_stats] in Hst.
  injection Hst as Hc1 Hd1 Hst1 Hdel1 Hreq1.
  refine (_ : wp (reconcile (b, u)) s1 (fun o s' t =>
    o = Return tt /\
    config (self s') = config (self s) /\
    dry_run (self s') = dry_run (self s) /\
    (b = None -> u = None ->
       stats (self s') = aborted (clock (world s')) (reset_check (stats (self s)) n) /\
       quiet (t1 ++ t) /\ logged (t1 ++ t) ERROR error_both) /\
    (is_not_None b || is_not_None u = true ->
       exists k, 0 <= k <= len bl + len ul /\
         stats (self s') =
           processed bl ul (clock (world s1)) k (reset_check (stats (self s)) n) /\
         triggers (t1 ++ t) = map name bl ++ map name ul /\
         posts (t1 ++ t) `sublist_of` map (repair_url (config (self s))) (bl ++ ul) /\
         (dry_run (self s) = true -> posts (t1 ++ t) = [] /\ k = len bl + len ul) /\
         (dry_run (self s) = false -> delays_ok (self s) ->
            posts (t1 ++ t) = map (repair_url (config (self s))) (bl ++ ul)) /\
         (b = None -> logged (t1 ++ t) WARN warning_broken) /\
         (u = None -> logged (t1 ++ t) WARN warning_under_repair)))).
  destruct Hq as [Hq1 Hq2].
  apply reconcile_spec.
  - intros -> -> s' t Hf Hw Hst' Hq' Hl. destruct Hf as (Hc & Hd & _).
    split; [done|]. split; [congruence|]. split; [congruence|]. split.
    + intros _ _. rewrite Hst', Hw, Hst1. split; [done|]. split.
      * by apply quiet_app.
      * by apply logged_later.
    + intros [=].
  - intros Hsome s' t k Hf Hk Hst' Ht Hsub Hdry Hreal Hwb Hwu. destruct Hf as (Hc & Hd & _).
    split; [done|]. split; [congruence|]. split; [congruence|]. split.
    + intros -> ->. done.
    + intros _. exists k. rewrite Hst', Hst1, triggers_app, !posts_app, Hq1, Hq2.
      cbn [app]. unfold delays_ok in *.
      rewrite Hc1 in Hsub, Hreal. rewrite Hd1 in Hdry, Hreal. rewrite Hdel1 in Hreal.
      split; [exact Hk|]. split; [reflexivity|]. split; [exact Ht|]. split; [exact Hsub|].
      split; [exact Hdry|]. split; [exact Hreal|].
      split; intros ?; apply logged_later; auto.
Qed.

(** C9: the four cumulative counters never decrease across a call of
    [perform_check], whatever the fetches return. *)
Theorem perform_check_counters_monotone s :
  counters_le (stats (self s)) (stats (self (final (perform_check decode parse s)))).
Proof.
  destruct (fetch_phase_run s) as (b & u & n0 & Ho & _).
  destruct (perform_check_run s b u Ho) as (n & Hn & _ & _ & _ & Hfail & Hgo).
  destruct (is_not_None b || is_not_None u) eqn:E.
  - destruct (Hgo eq_refl) as (k & Hk & Hst & _). rewrite Hst.
    unfold counters_le, processed, reset_check. cbn.
    pose proof (len_nonneg (default [] b)). pose proof (len_nonneg (default [] u)). lia.
  - destruct b, u; try discriminate. destruct (Hfail eq_refl eq_refl) as (Hst & _).
    rewrite Hst. unfold counters_le, aborted, reset_check. cbn. lia.
Qed.


(** C4: a cycle whose broken and under-repair lists are both empty, at least
    one of them fetched, announces and posts no repair, leaves
    [previous_check_triggered] empty, and ends with [ok_torrents] equal to
    [total_torrents]. *)
Theorem perform_check_healthy s b u :
  outcome (fetch_phase decode parse s) = Return (b, u) ->
  is_not_None b || is_not_None u = true ->
  default [] b = [] -> default [] u = [] ->
  let r := perform_check decode parse s in
  let after := stats (self (final r)) in
  outcome r = Return tt /\
  triggers (events r) = [] /\ posts (events r) = [] /\
  cs_repairs_triggered (current_check after) = 0 /\
  previous_check_triggered after = [] /\
  ok_torrents (current_check after) = total_torrents (current_check after).
Proof.
  intros Ho Hsome Hb Hu r after.
  destruct (perform_check_run s b u Ho) as (n & Hn & Hret & _ & _ & _ & Hgo).
  destruct (Hgo Hsome) as (k & Hk & Hst & Ht & Hsub & _).
  rewrite Hb, Hu in *. cbn [app map] in *.
  apply sublist_nil_r in Hsub. change (len []) with 0 in Hk.
  assert (k = 0) as -> by lia.
  subst after r. rewrite Hst. unfold processed, reset_check. cbn.
  repeat split; try done.
  destruct (Z.ltb_spec 0 n); lia.
Qed.

End check.

(** ** Start-up, single-shot and continuous mode *)

Lemma wp_any {A} (m : M A) s (Q : Outcome A -> State -> list Event -> Prop) :
  (forall o s' t, Q o s' t) -> wp m s Q.
Proof. intros H. apply H. Qed.

Lemma wp_finally_return {A B} (body : M A) (fin : M B) s
    (Q : Outcome B -> State -> list Event -> Prop) :
  wp body s (fun _ s1 t1 => wp fin s1 (fun o s2 t2 => Q o s2 (t1 ++ t2))) ->
  wp (finally_return body fin) s Q.
Proof. intros H; exact H. Qed.

Lemma show_overall_statistics_pure s :
  outcome (show_overall_statistics s) = Return tt /\
  final (show_overall_statistics s) = s.
Proof.
  refine (_ : wp show_overall_statistics s (fun o s' _ => o = Return tt /\ s' = s)).
  by apply show_overall_statistics_spec.
Qed.

Lemma log_startup_spec b s Q :
  (forall t, quiet t -> Q (Return tt) s t) -> wp (log_startup b) s Q.
Proof.
  intros HQ. unfold log_startup, _log_banner. repeat wp_step.
  destruct b; repeat wp_step; destruct (dry_run (self s)); repeat wp_step;
    apply HQ; quiet_solve.
Qed.

Lemma test_connection_spec s Q :
  (forall s' t,
     same_but_count s s' -> quiet t ->
     Q (Return (body_nonempty (next_response s))) s' t) ->
  wp test_connection s Q.
Proof.
  intros HQ. unfold test_connection. repeat wp_step.
  apply make_request_spec. intros t Ht Hp.
  destruct (next_response s) as [[|b content]| | |];
    cbn [content_of bytes_truthy body_nonempty]; repeat wp_step;
    (apply HQ; [by split | split; by trace_hyps]).
Qed.

Lemma load_global_LogLevelOUTPUT :
  load_global "LogLevelOUTPUT" = raise (NameError "LogLevelOUTPUT").
Proof. reflexivity. Qed.

Section modes.

Variable decode : list Byte.byte -> string.
Variable parse : string -> string -> list TorrentInfo.

(** Both modes return 1 when the probe fails. *)
Lemma run_once_probe_fails s :
  body_nonempty (next_response s) = false ->
  outcome (run_once decode parse s) = Return 1.
Proof.
  intros Hb.
  refine (_ : wp (run_once decode parse) s (fun o _ _ => o = Return 1)).
  unfold run_once. wp_step. apply log_startup_spec. intros t0 _. wp_simpl. wp_step.
  apply test_connection_spec. intros s1 t1 _ _. rewrite Hb. cbn [negb]. repeat wp_step.
  reflexivity.
Qed.

Lemma run_continuous_probe_fails n s :
  body_nonempty (next_response s) = false ->
  outcome (run_continuous decode parse n s) = Return 1.
Proof.
  intros Hb.
  refine (_ : wp (run_continuous decode parse n) s (fun o _ _ => o = Return 1)).
  unfold run_continuous. wp_step. apply log_startup_spec. intros t0 _. wp_simpl. wp_step.
  apply test_connection_spec. intros s1 t1 _ _. rewrite Hb. cbn [negb]. repeat wp_step.
  reflexivity.
Qed.

(** Once the probe has succeeded, [run_continuous] ends in the [finally]
    block, whatever stopped the loop: the report is the last thing it
    writes, and the name error of the next line is its outcome. *)
Lemma run_continuous_after_probe n s :
  body_nonempty (next_response s) = true ->
  let r := run_continuous decode parse n s in
  outcome r = Raise (NameError "LogLevelOUTPUT") /\
  exists s' before, events r = before ++ events (show_overall_statistics s').
Proof.
  intros Hb.
  refine (_ : wp (run_continuous decode parse n) s (fun o _ t =>
              o = Raise (NameError "LogLevelOUTPUT") /\
              exists s' before, t = before ++ events (show_overall_statistics s'))).
  unfold run_continuous. wp_step. apply log_startup_spec. intros t0 _. wp_simpl. wp_step.
  apply test_connection_spec. intros s1 t1 _ _. rewrite Hb. cbn [negb]. repeat wp_step.
  apply wp_finally_return. apply wp_any. intros _ s2 t2. repeat wp_step.
  unfold wp at 1. destruct (show_overall_statistics_pure s2) as [Ho Hf]. rewrite Ho, Hf.
  rewrite load_global_LogLevelOUTPUT. repeat wp_step.
  split; [reflexivity|]. exists s2. eexists.
  rewrite app_nil_r. rewrite !app_assoc. reflexivity.
Qed.

End modes.

Section entry.

Variable decode : list Byte.byte -> string.
Variable parse : string -> string -> list TorrentInfo.

(** C10: [test_connection] returns [True] exactly when the answer to its
    [GET .../stats] is a non-empty body.  An empty body is a failed probe,
    after which both modes return 1 and the process exits with status 1;
    [trigger_repair] counts the same empty body as a success. *)
Theorem test_connection_iff_nonempty_body s :
  outcome (test_connection s) = Return (body_nonempty (next_response s)) /\
  (next_response s = Body [] ->
     outcome (test_connection s) = Return false /\
     outcome (run_once decode parse s) = Return 1 /\
     (forall n, outcome (run_continuous decode parse n s) = Return 1) /\
     (dry_run (self s) = false -> delays_ok (self s) ->
        forall h n, outcome (trigger_repair h n s) = Return true)) /\
  (forall base args n w,
     check_interval_rejected args = false ->
     body_nonempty (net w (sent w)) = false ->
     exit_status (main decode parse base args n w).1 = 1).
Proof.
  assert (Hprobe : forall s0,
            outcome (test_connection s0) = Return (body_nonempty (next_response s0))).
  { intros s0.
    refine (_ : wp test_connection s0 (fun o _ _ => o = Return (body_nonempty (next_response s0)))).
    apply test_connection_spec. done. }
  split; [apply Hprobe|]. split.
  - intros Hempty. rewrite Hprobe, Hempty. split; [done|].
    split; [apply run_once_probe_fails; by rewrite Hempty|].
    split; [intros n; apply run_continuous_probe_fails; by rewrite Hempty|].
    intros Hdry Hok h n.
    refine (_ : wp (trigger_repair h n) s (fun o _ _ => o = Return true)).
    apply trigger_repair_spec. intros b s' t _ _ _ _ Hreal.
    destruct (Hreal Hdry Hok) as [-> _]. by rewrite Hempty.
  - intros base args n w Hrej Hbody. unfold main. rewrite Hrej.
    destruct (a_run_once args); cbn [fst].
    + by rewrite run_once_probe_fails.
    + by rewrite run_continuous_probe_fails.
Qed.

(** C2 (what the code does): in continuous mode, once the probe has
    succeeded, the report of [show_overall_statistics] is the last thing
    written, but the process does not exit with status 0: the [finally]
    block raises [NameError] on the name [LogLevelOUTPUT], which leaves
    [main], and the exit status is 1.  This holds for every number of
    completed cycles before the interrupt. *)
Theorem continuous_mode_exit_status base args n w :
  check_interval_rejected args = false ->
  a_run_once args = false ->
  body_nonempty (net w (sent w)) = true ->
  let run := main decode parse base args n w in
  run.1 = Raise (NameError "LogLevelOUTPUT") /\
  exit_status run.1 = 1 /\
  exists s' before, run.2 = before ++ events (show_overall_statistics s').
Proof.
  intros Hrej Honce Hbody run. subst run. unfold main. rewrite Hrej, Honce. cbn [fst snd].
  destruct (run_continuous_after_probe decode parse n
              {| self := ZurgMonitor_new (load_config base args) (a_dry_run args);
                 world := w |} Hbody) as [Ho Hev].
  rewrite Ho. split; [done|]. split; [done|]. exact Hev.
Qed.

(** C7 (what the code does): a negative interval on the command line is
    rejected, [main] printing the error and returning 1; an interval of 0 is
    not: the validation lets it through and [main] runs exactly as it does
    when the option is absent. *)
Theorem check_interval_zero_not_rejected base args n w i :
  a_check_interval args = Some i -> i < 1 ->
  (i < 0 ->
     check_interval_rejected args = true /\
     main decode parse base args n w =
     (Return 1, [EvPrint [Lit "Error: Check interval must be at least 1 minute"]]) /\
     exit_status (main decode parse base args n w).1 = 1) /\
  (i = 0 ->
     check_interval_rejected args = false /\
     main decode parse base args n w =
     main decode parse base (with_check_interval args None) n w).
Proof.
  intros Hi Hlt. split.
  - intros Hneg. unfold main, check_interval_rejected. rewrite Hi. cbn.
    unfold int_truthy.
    destruct (Z.eqb_spec i 0); [lia|]. destruct (Z.ltb_spec i 1); [|lia]. done.
  - intros ->. unfold main, check_interval_rejected, load_config.
    rewrite Hi. cbn. done.
Qed.

End entry.

(** ** The comparison metrics as set arithmetic *)

Lemma sum_1_for_length p l :
  sum_1_for p l = Z.of_nat (length (filter (fun h => Is_true (p h)) l)).
Proof.
  induction l as [|h l IH]; [done|]. cbn [sum_1_for]. rewrite filter_cons.
  destruct (p h) eqn:E; case_decide as Hd; cbn [length] in *.
  - lia.
  - by destruct Hd.
  - by destruct Hd.
  - done.
Qed.

(** On a duplicate-free list, counting the elements that pass a test is
    taking the size of a set. *)
Lemma sum_1_for_size p l (X : gset string) :
  NoDup l ->
  (forall h, h ∈ X <-> h ∈ l /\ p h = true) ->
  sum_1_for p l = Z.of_nat (size X).
Proof.
  intros Hnd HX. rewrite sum_1_for_length. f_equal.
  rewrite <- (size_list_to_set (C := gset string)) by by apply NoDup_filter.
  f_equal. apply set_eq. intros h.
  rewrite elem_of_list_to_set, list_elem_of_filter, HX, Is_true_true. tauto.
Qed.

Lemma str_in_true h l : str_in h l = true <-> h ∈ l.
Proof. unfold str_in. apply bool_decide_eq_true. Qed.

Lemma str_in_false h l : negb (str_in h l) = true <-> h ∉ l.
Proof. unfold str_in. rewrite negb_true_iff. apply bool_decide_eq_false. Qed.

Lemma logged_earlier t1 t2 lvl msg : logged t1 lvl msg -> logged (t1 ++ t2) lvl msg.
Proof. intros [H1 H2]. split; apply elem_of_app; by left. Qed.

Ltac find_logged :=
  first [ apply logged_here; reflexivity
        | apply logged_later; find_logged
        | apply logged_earlier; find_logged ].

(** When the previous cycle triggered repairs, the summary prints the five
    metrics. *)
Lemma show_check_summary_reports s :
  list_truthy (previous_check_triggered (stats (self s))) = true ->
  let t := events (show_check_summary s) in
  let st := stats (self s) in
  logged t OUTPUT [Lit "  Successfully Repaired:     "; Int (repaired st)] /\
  logged t OUTPUT [Lit "  Moved to Repair:           "; Int (moved_to_repair st)] /\
  logged t OUTPUT [Lit "  Still Broken:              "; Int (still_broken st)] /\
  logged t OUTPUT [Lit "  Still Under Repair:        "; Int (still_under_repair st)] /\
  logged t OUTPUT [Lit "  New Broken:                "; Int (new_broken st)].
Proof.
  intros Hpt.
  refine (_ : wp show_check_summary s (fun _ _ t =>
    logged t OUTPUT [Lit "  Successfully Repaired:     "; Int (repaired (stats (self s)))] /\
    logged t OUTPUT [Lit "  Moved to Repair:           "; Int (moved_to_repair (stats (self s)))] /\
    logged t OUTPUT [Lit "  Still Broken:              "; Int (still_broken (stats (self s)))] /\
    logged t OUTPUT [Lit "  Still Under Repair:        "; Int (still_under_repair (stats (self s)))] /\
    logged t OUTPUT [Lit "  New Broken:                "; Int (new_broken (stats (self s)))])).
  unfold show_check_summary. wp_simpl. wp_step.
  apply for_each_log_spec; [done|]. intros t0 Ht0. repeat wp_step.
  destruct (0 <? total_torrents _); repeat wp_step.
  all: destruct (list_truthy (broken_names _)); repeat wp_step;
    [ apply for_each_log_spec; [done|]; intros t1 Ht1 | ]; repeat wp_step.
  all: destruct (list_truthy (under_repair_names _)); repeat wp_step;
    [ apply for_each_log_spec; [done|]; intros t2 Ht2 | ]; repeat wp_step.
  all: rewrite Hpt; repeat wp_step.
  all: destruct (0 <? len _); repeat wp_step.
  all: repeat split; find_logged.
Qed.

(** C1: on duplicate-free identifier lists (the two current ones
    disjoint), the five metrics of the check summary are the sizes of the
    sets of the specification, hence functions of the five sets alone; and
    these are the numbers the summary prints whenever it prints the
    comparison. *)
Theorem comparison_metrics_set_formulas s :
  let st := stats (self s) in
  let current_broken := broken_hashes (current_check st) in
  let current_under_repair := under_repair_hashes (current_check st) in
  NoDup current_broken -> NoDup current_under_repair ->
  NoDup (previous_check_broken st) -> NoDup (previous_check_under_repair st) ->
  NoDup (previous_check_triggered st) ->
  current_broken ## current_under_repair ->
  let CB : gset string := list_to_set current_broken in
  let CU : gset string := list_to_set current_under_repair in
  let PB : gset string := list_to_set (previous_check_broken st) in
  let PU : gset string := list_to_set (previous_check_under_repair st) in
  let PT : gset string := list_to_set (previous_check_triggered st) in
  (repaired st = Z.of_nat (size (PT ∖ (CB ∪ CU))) /\
   moved_to_repair st = Z.of_nat (size (PB ∩ CU)) /\
   still_broken st = Z.of_nat (size (PB ∩ CB)) /\
   still_under_repair st = Z.of_nat (size (PU ∩ CU)) /\
   new_broken st = Z.of_nat (size (CB ∖ PB ∖ PU))) /\
  (previous_check_triggered st <> [] ->
   let t := events (show_check_summary s) in
   logged t OUTPUT [Lit "  Successfully Repaired:     "; Int (Z.of_nat (size (PT ∖ (CB ∪ CU))))] /\
   logged t OUTPUT [Lit "  Moved to Repair:           "; Int (Z.of_nat (size (PB ∩ CU)))] /\
   logged t OUTPUT [Lit "  Still Broken:              "; Int (Z.of_nat (size (PB ∩ CB)))] /\
   logged t OUTPUT [Lit "  Still Under Repair:        "; Int (Z.of_nat (size (PU ∩ CU)))] /\
   logged t OUTPUT [Lit "  New Broken:                "; Int (Z.of_nat (size (CB ∖ PB ∖ PU)))]).
Proof.
  intros st cb cu Hcb Hcu Hpb Hpu Hpt Hdisj CB CU PB PU PT.
  assert (Hm : repaired st = Z.of_nat (size (PT ∖ (CB ∪ CU))) /\
               moved_to_repair st = Z.of_nat (size (PB ∩ CU)) /\
               still_broken st = Z.of_nat (size (PB ∩ CB)) /\
               still_under_repair st = Z.of_nat (size (PU ∩ CU)) /\
               new_broken st = Z.of_nat (size (CB ∖ PB ∖ PU))).
  { unfold repaired, moved_to_repair, still_broken, still_under_repair, new_broken.
    repeat split; (apply sum_1_for_size; [assumption|]); intros h;
      rewrite ?andb_true_iff, ?str_in_false, ?str_in_true;
      subst CB CU PB PU PT; clear; set_unfold; tauto. }
  split; [exact Hm|]. intros Hne t.
  destruct Hm as (<- & <- & <- & <- & <-).
  apply show_check_summary_reports. fold st.
  destruct (previous_check_triggered st); [by destruct Hne | done].
Qed.

(** ** The identifier scanner *)

Lemma strip_prefix_spec lit s r :
  strip_prefix lit s = Some r <-> s = lit +:+ r.
Proof.
  revert s. induction lit as [|c lit IH]; intros s; cbn.
  - split; [by intros [= ->] | by intros ->].
  - destruct s as [|d s]; [split; intros [=] |].
    destruct (Ascii.eqb_spec c d) as [->|Hne].
    + rewrite IH. split; [by intros -> | by intros [= ->]].
    + split; [intros [=] | intros [= <-]; done].
Qed.

Lemma take_hex_spec n s g r :
  take_hex n s = Some (g, r) <->
  s = g +:+ r /\ String.length g = n /\ all_hex g = true.
Proof.
  revert s g r. induction n as [|n IH]; intros s g r; cbn.
  - split.
    + by intros [= <- <-].
    + intros (-> & Hl & _). by destruct g.
  - destruct s as [|c s].
    { split; [intros [=] | intros (Hs & Hl & _)]. by destruct g. }
    destruct (is_hex c) eqn:Hc.
    + destruct (take_hex n s) as [[g' r']|] eqn:Ht.
      * apply IH in Ht as (-> & Hl & Hh). split.
        -- intros [= <- <-]. cbn. rewrite Hc, Hh, Hl. done.
        -- intros (Hs & Hl' & Hh'). destruct g as [|c' g]; [done|].
           cbn in Hs, Hl', Hh'. injection Hs as <- Hs.
           apply andb_prop in Hh' as [_ Hh'].
           assert (take_hex n (g' +:+ r') = Some (g, r)) as Ht'.
           { apply IH. split; [done | split; [lia | done]]. }
           assert (take_hex n (g' +:+ r') = Some (g', r')) as Ht''.
           { apply IH. done. }
           rewrite Ht' in Ht''. by injection Ht'' as -> ->.
      * split; [intros [=] |]. intros (Hs & Hl' & Hh').
        destruct g as [|c' g]; [done|]. cbn in Hs, Hl', Hh'.
        injection Hs as <- Hs. apply andb_prop in Hh' as [_ Hh'].
        assert (take_hex n s = Some (g, r)) as Ht'.
        { apply IH. split; [done | split; [lia | done]]. }
        by rewrite Ht in Ht'.
    + split; [intros [=] |]. intros (Hs & Hl' & Hh').
      destruct g as [|c' g]; [done|]. cbn in Hs, Hh'. injection Hs as <- Hs.
      by rewrite Hc in Hh'.
Qed.

(** The pattern matches at the head of [s] exactly when [s] begins with
    the opening literal, an identifier and the closing literal. *)
Lemma match_here_spec before after s g :
  match_here before after s = Some g <->
  exists rest, s = before +:+ g +:+ after +:+ rest /\ identifier g.
Proof.
  unfold match_here, identifier. split.
  - destruct (strip_prefix before s) as [s1|] eqn:H1; [|done].
    destruct (take_hex 40 s1) as [[g' s2]|] eqn:H2; [|done].
    destruct (strip_prefix after s2) as [s3|] eqn:H3; [|done].
    intros [= ->]. apply strip_prefix_spec in H1, H3.
    apply take_hex_spec in H2 as (-> & Hl & Hh). subst. by exists s3.
  - intros (rest & -> & Hl & Hh).
    assert (strip_prefix before (before +:+ g +:+ after +:+ rest)
            = Some (g +:+ after +:+ rest)) as -> by by apply strip_prefix_spec.
    assert (take_hex 40 (g +:+ after +:+ rest) = Some (g, after +:+ rest)) as ->
      by by apply take_hex_spec.
    assert (strip_prefix after (after +:+ rest) = Some rest) as ->
      by by apply strip_prefix_spec.
    done.
Qed.

Lemma match_here_empty before after : match_here before after "" = None.
Proof.
  unfold match_here. destruct before; cbn; [|done].
  by destruct (strip_prefix after "").
Qed.

(** [all_matches] lists the identifiers the pattern finds at any offset. *)
Lemma all_matches_spec before after s g :
  g ∈ all_matches before after s <->
  exists pre post, s = pre +:+ post /\ match_here before after post = Some g.
Proof.
  induction s as [|c s IH]; cbn [all_matches].
  - split; [by intros ?%elem_of_nil |]. intros (pre & post & Hs & Hm).
    destruct pre, post; try done. by rewrite match_here_empty in Hm.
  - assert (g ∈ all_matches before after s <->
            exists pre post, String c s = String c pre +:+ post /\
                             match_here before after post = Some g) as IH'.
    { rewrite IH. split; intros (pre & post & Hs & Hm); exists pre, post.
      - by rewrite Hs.
      - by injection Hs as ->. }
    destruct (match_here before after (String c s)) as [g'|] eqn:Hm.
    + rewrite elem_of_cons, IH'. split.
      * intros [->|(pre & post & Hs & Hm')].
        -- by exists "", (String c s).
        -- by exists (String c pre), post.
      * intros (pre & post & Hs & Hm'). destruct pre as [|c' pre].
        -- change (String c s = post) in Hs. subst post. rewrite Hm in Hm'. left. by injection Hm'.
        -- right. simpl in Hs. injection Hs as <- ->. by exists pre, post.
    + rewrite IH'. split.
      * intros (pre & post & Hs & Hm'). by exists (String c pre), post.
      * intros (pre & post & Hs & Hm'). destruct pre as [|c' pre].
        -- change (String c s = post) in Hs. subst post. by rewrite Hm in Hm'.
        -- simpl in Hs. injection Hs as <- ->. by exists pre, post.
Qed.

(** *** Matches of the [data-hash] pattern do not overlap *)

Lemma starts_dat_false s :
  starts_dat s = false -> match_here data_hash_before data_hash_after s = None.
Proof.
  intros Hs. unfold match_here.
  destruct (strip_prefix data_hash_before s) as [r|] eqn:H1; [|done].
  apply strip_prefix_spec in H1. subst s. discriminate Hs.
Qed.

Lemma is_hex_not_t c : is_hex c = true -> Ascii.eqb "t" c = false.
Proof. destruct (Ascii.eqb_spec "t" c) as [<-|]; done. Qed.

Lemma starts_dat_intro c1 c2 c3 s :
  Ascii.eqb "a" c2 = false \/ Ascii.eqb "t" c3 = false ->
  starts_dat (String c1 (String c2 (String c3 s))) = false.
Proof. intros [H|H]; unfold starts_dat; rewrite H; by rewrite ?andb_false_r. Qed.

(** No match starts inside an identifier or at the quote that closes it. *)
Lemma no_match_identifier g rest :
  all_hex g = true -> no_match (S (String.length g)) (g +:+ dquote +:+ rest).
Proof.
  induction g as [|h g IH]; intros Hh.
  - split; [|done]. apply starts_dat_false. by destruct rest as [|? [|? ?]].
  - change (is_hex h && all_hex g = true) in Hh.
    apply andb_prop in Hh as [Hc Hh].
    change (match_here data_hash_before data_hash_after
              (String h (g +:+ dquote +:+ rest)) = None /\
            no_match (S (String.length g)) (g +:+ dquote +:+ rest)).
    split; [|by apply IH]. apply starts_dat_false.
    destruct g as [|h2 [|h3 g]].
    + destruct rest as [|c r]; [reflexivity|].
      apply (starts_dat_intro h "034"%char c r). by left.
    + apply (starts_dat_intro h h2 "034"%char rest). by right.
    + change (is_hex h2 && (is_hex h3 && all_hex g) = true) in Hh.
      apply andb_prop in Hh as [_ Hh]. apply andb_prop in Hh as [Hh _].
      apply (starts_dat_intro h h2 h3 (g +:+ dquote +:+ rest)). right.
      by apply is_hex_not_t.
Qed.

(** After a match, the pattern matches at none of the 51 offsets the scan
    passes over. *)
Lemma no_match_after_match c s g :
  match_here data_hash_before data_hash_after (String c s) = Some g ->
  no_match 51 s.
Proof.
  intros (rest & Hs & Hl & Hh)%match_here_spec.
  assert (s = "ata-hash=" +:+ dquote +:+ g +:+ dquote +:+ rest) as ->
    by by injection Hs.
  pose proof (no_match_identifier g rest Hh) as Hn. rewrite Hl in Hn.
  change data_hash_after with dquote.
  do 10 (split; [reflexivity|]). exact Hn.
Qed.

(** The scan of [get_total_torrent_stats] misses no match. *)
Lemma finditer_all_matches s k :
  no_match k s ->
  finditer data_hash_before data_hash_after s k
  = all_matches data_hash_before data_hash_after s.
Proof.
  revert k. induction s as [|c s IH]; intros k Hk; [done|].
  cbn [finditer all_matches]. destruct k as [|k].
  - destruct (match_here _ _ (String c s)) as [g|] eqn:Hm.
    + f_equal. apply IH. change (_ + 40 + _ - 1)%nat with 51%nat.
      by eapply no_match_after_match.
    + by apply IH.
  - destruct Hk as [-> Hk]. by apply IH.
Qed.

(** The identifiers [get_total_torrent_stats] collects are the lower-cased
    values of the [data-hash] attributes of the listing. *)
Lemma unique_hashes_spec html h :
  h ∈ unique_hashes html <-> exists g, data_hash_attribute html g /\ h = lower g.
Proof.
  unfold unique_hashes, data_hash_attribute.
  rewrite elem_of_list_to_set, (finditer_all_matches _ 0 I).
  change (map lower ?l) with (lower <$> l). rewrite list_elem_of_fmap.
  split.
  - intros (g & -> & Hg). apply all_matches_spec in Hg as (pre & post & -> & Hm).
    apply match_here_spec in Hm as (rest & -> & Hid).
    exists g. split; [|done]. by exists pre, rest.
  - intros (g & (pre & post & -> & Hid) & ->). exists g. split; [done|].
    apply all_matches_spec. eexists pre, _. split; [done|].
    apply match_here_spec. by exists post.
Qed.

Section total_count.

Variable decode : list Byte.byte -> string.

(** C8 (as amended): for every listing, the number [get_total_torrent_stats]
    computes is the number of distinct lower-cased identifiers that are the
    value of a [data-hash="..."] attribute of the listing (the same
    identifier in another letter case counts once); and that number is what
    the operation returns when the request yields the listing. *)
Theorem total_count_data_hash_attributes (html : string) :
  exists ids : gset string,
    (forall h, h ∈ ids <-> exists g, data_hash_attribute html g /\ h = lower g) /\
    count_total html = Z.of_nat (size ids) /\
    (forall s content,
       delays_ok (self s) -> next_response s = Body content ->
       decode content = html ->
       outcome (get_total_torrent_stats decode s) = Return (Some (Z.of_nat (size ids)))).
Proof.
  exists (unique_hashes html). split; [apply unique_hashes_spec|].
  split; [reflexivity|]. intros s content Hok Hbody <-.
  refine (_ : wp (get_total_torrent_stats decode) s
                (fun o _ _ => o = Return (Some (count_total (decode content))))).
  apply get_total_torrent_stats_spec. intros r s' t _ _ _ Hr.
  rewrite (Hr Hok), Hbody. reflexivity.
Qed.

End total_count.

(** The claim C8 as worded fails on a listing whose only identifier stands
    in a link to the management page: the identifier occurs in the listing,
    the extractor's link pattern finds it, and the count is 0. *)
Lemma count_total_misses_manage_link :
  let html := manage_link hash_a in
  occurs_anywhere html hash_a /\
  finditer manage_link_before manage_link_after html 0 = [hash_a] /\
  count_total html = 0 /\
  ~ (exists ids : gset string,
       (forall h, h ∈ ids <-> exists g, occurs_anywhere html g /\ h = lower g) /\
       count_total html = Z.of_nat (size ids)).
Proof.
  intros html.
  assert (Hocc : occurs_anywhere html hash_a).
  { exists ("<a " +:+ manage_link_before), (manage_link_after +:+ ">x</a>").
    split; [reflexivity|]. split; reflexivity. }
  assert (Hcount : count_total html = 0).
  { unfold count_total, unique_hashes.
    assert (finditer data_hash_before data_hash_after html 0 = []) as ->
      by (vm_compute; reflexivity).
    reflexivity. }
  split; [exact Hocc|]. split; [vm_compute; reflexivity|]. split; [exact Hcount|].
  intros (ids & Hids & Hsize). rewrite Hcount in Hsize.
  assert (size ids = 0%nat) as Hz by lia. apply size_empty_inv in Hz.
  assert (lower hash_a ∈ ids) as Hin by (apply Hids; by exists hash_a).
  apply Hz in Hin. by apply elem_of_empty in Hin.
Qed.

(** The theorem for C8 on a listing of one row, served to a fresh monitor. *)
Lemma total_count_data_hash_attributes_witness :
  exists ids : gset string,
    (hash_a ∈ ids) /\
    outcome (get_total_torrent_stats decode_ascii (fresh (serving [row hash_a])))
    = Return (Some (Z.of_nat (size ids))).
Proof.
  destruct (total_count_data_hash_attributes decode_ascii (row hash_a))
    as (ids & Hids & _ & Hrun).
  exists ids. split.
  - apply Hids. exists hash_a. split; [|reflexivity].
    exists "<tr ", "></tr>". split; [reflexivity|]. split; reflexivity.
  - apply (Hrun (fresh (serving [row hash_a])) (list_byte_of_string (row hash_a))).
    + split; vm_compute; discriminate.
    + reflexivity.
    + vm_compute. reflexivity.
Defined.




(** The theorem for C4 on a monitor served three empty listings. *)
Lemma perform_check_healthy_witness :
  let s := fresh (serving [empty_listing; empty_listing; empty_listing]) in
  let r := perform_check decode_ascii rows_only s in
  outcome r = Return tt /\
  triggers (events r) = [] /\ posts (events r) = [] /\
  previous_check_triggered (stats (self (final r))) = [] /\
  ok_torrents (current_check (stats (self (final r))))
  = total_torrents (current_check (stats (self (final r)))).
Proof.
  intros s r.
  destruct (perform_check_healthy decode_ascii rows_only s (Some []) (Some []))
    as (Ho & Ht & Hp & _ & Hprev & Hok).
  - vm_compute. reflexivity.
  - reflexivity.
  - reflexivity.
  - reflexivity.
  - repeat split; assumption.
Defined.


(** The theorem for C10 on an empty answer to the probe. *)
Lemma test_connection_iff_nonempty_body_witness :
  let s := fresh (serving [""]) in
  outcome (test_connection s) = Return false /\
  outcome (run_once decode_ascii rows_only s) = Return 1 /\
  outcome (trigger_repair hash_a "a" s) = Return true /\
  exit_status (main decode_ascii rows_only (default_config "/opt") no_args 0 (serving [""])).1 = 1.
Proof.
  intros s.
  destruct (test_connection_iff_nonempty_body decode_ascii rows_only s)
    as (_ & Hempty & Hmain).
  destruct Hempty as (Hp & Ho & _ & Ht); [reflexivity|].
  split; [exact Hp|]. split; [exact Ho|]. split.
  - apply Ht; [reflexivity|]. split; vm_compute; discriminate.
  - apply Hmain; reflexivity.
Defined.

(** The theorem for C2 on a run of the defaults interrupted during the
    first sleep. *)
Lemma continuous_mode_exit_status_witness :
  let w := serving ["ok"; empty_listing; empty_listing; empty_listing] in
  let run := main decode_ascii rows_only (default_config "/opt") no_args 0 w in
  run.1 = Raise (NameError "LogLevelOUTPUT") /\ exit_status run.1 = 1.
Proof.
  intros w run.
  destruct (continuous_mode_exit_status decode_ascii rows_only
              (default_config "/opt") no_args 0 w) as (Hr & He & _).
  - reflexivity.
  - reflexivity.
  - reflexivity.
  - split; assumption.
Defined.

(** The theorem for C7 on [--check-interval 0 --run-once]; served a healthy
    listing, that run ends with status 0. *)
Lemma check_interval_zero_not_rejected_witness :
  let w := serving ["ok"; empty_listing; empty_listing; empty_listing] in
  check_interval_rejected zero_interval_once = false /\
  main decode_ascii rows_only (default_config "/opt") zero_interval_once 0 w
  = main decode_ascii rows_only (default_config "/opt")
      (with_check_interval zero_interval_once None) 0 w /\
  exit_status (main decode_ascii rows_only (default_config "/opt")
                 zero_interval_once 0 w).1 = 0.
Proof.
  intros w.
  destruct (check_interval_zero_not_rejected decode_ascii rows_only
              (default_config "/opt") zero_interval_once 0 w 0) as [_ Hz].
  - reflexivity.
  - lia.
  - destruct Hz as [Hrej Hrun]; [reflexivity|].
    split; [exact Hrej|]. split; [exact Hrun|]. vm_compute. reflexivity.
Defined.

(** The theorem for C1 between two checks: of the two identifiers whose
    repair the previous check triggered, one is gone from both lists. *)
Lemma comparison_metrics_set_formulas_witness :
  let st := stats (self second_check) in
  let CB : gset string := list_to_set (broken_hashes (current_check st)) in
  let CU : gset string := list_to_set (under_repair_hashes (current_check st)) in
  let PB : gset string := list_to_set (previous_check_broken st) in
  let PT : gset string := list_to_set (previous_check_triggered st) in
  repaired st = Z.of_nat (size (PT ∖ (CB ∪ CU))) /\
  moved_to_repair st = Z.of_nat (size (PB ∩ CU)) /\
  logged (events (show_check_summary second_check)) OUTPUT
    [Lit "  Successfully Repaired:     "; Int (Z.of_nat (size (PT ∖ (CB ∪ CU))))].
Proof.
  intros st CB CU PB PT.
  destruct (comparison_metrics_set_formulas second_check)
    as ((Hr & Hm & _) & Hlog).
  - apply NoDup_nil_2.
  - apply (bool_decide_unpack _). vm_compute. exact I.
  - apply (bool_decide_unpack _). vm_compute. exact I.
  - apply NoDup_nil_2.
  - apply (bool_decide_unpack _). vm_compute. exact I.
  - intros x Hx. by apply elem_of_nil in Hx.
  - destruct Hlog as (Hl & _); [discriminate|].
    split; [exact Hr|]. split; [exact Hm|]. exact Hl.
Defined.

(** * Further properties of the code *)

(** ** The rate limiter over many calls *)

Lemma bind_raise {A B} (m : M A) (k : A -> M B) s e :
  outcome (m s) = Raise e ->
  bind m k s = mkRun (Raise e) (final (m s)) (events (m s)).
Proof. intros H. unfold bind. by rewrite H. Qed.





Lemma check_rate_limit_negative_run s :
  request_count (self s) + 1 < rate_limit_requests (self s) ->
  (rate_limit_delay (self s) < 0)%Q ->
  _check_rate_limit s =
  mkRun (Raise (ValueError "sleep length must be non-negative")) (counted 1 s) [].
Proof.
  intros Hlt Hd. unfold _check_rate_limit, bind; cbn.
  destruct (Z.leb_spec (rate_limit_requests (self s)) (request_count (self s) + 1)); [lia|].
  unfold time_sleep; cbn.
  destruct (Qle_bool 0 (rate_limit_delay (self s))) eqn:E.
  - apply Qle_bool_iff in E. exfalso. eapply Qlt_not_le; eassumption.
  - reflexivity.
Qed.


(** ** Requests *)

Lemma requests_app t1 t2 : requests (t1 ++ t2) = requests t1 ++ requests t2.
Proof. apply omap_app. Qed.

Lemma requests_log c msg lvl : requests (log_events c msg lvl) = [].
Proof. unfold log_events. by destruct (should_log c lvl), (should_print c lvl). Qed.

Lemma requests_sleep d l : requests (EvSleep d :: l) = requests l.
Proof. reflexivity. Qed.

Lemma requests_request method url timeout l :
  requests (EvRequest method url timeout :: l) = (method, url, timeout) :: requests l.
Proof. reflexivity. Qed.

Lemma requests_nil : requests [] = [].
Proof. reflexivity. Qed.

(** Normalises [requests] of a trace built from log lines, sleeps and
    requests, using what is known of its pieces. *)
Ltac req_simpl :=
  repeat first
    [ rewrite requests_app | rewrite requests_log | rewrite requests_sleep
    | rewrite requests_request | rewrite requests_nil
    | match goal with
      | H : requests ?t = _ |- context [requests ?t] => rewrite H
      end
    | rewrite app_nil_r | rewrite app_nil_l ].

Lemma logged_cons e t lvl msg : logged t lvl msg -> logged (e :: t) lvl msg.
Proof. intros [H1 H2]. split; apply elem_of_cons; by right. Qed.

Lemma logged_last c lvl msg :
  should_log c lvl = true -> should_print c lvl = true ->
  logged (log_events c msg lvl) lvl msg.
Proof.
  intros H1 H2. rewrite <- (app_nil_r (log_events c msg lvl)). by apply logged_here.
Qed.

(** Finds a message in a trace assembled from log lines and other pieces. *)
Ltac find_logged_in :=
  lazymatch goal with
  | |- logged (log_events _ _ _) _ _ => apply logged_last; reflexivity
  | |- logged (log_events _ _ _ ++ _) _ _ =>
      first [ apply logged_here; reflexivity | apply logged_later; find_logged_in ]
  | |- logged (_ ++ _) _ _ =>
      first [ apply logged_later; find_logged_in | apply logged_earlier; find_logged_in ]
  | |- logged (_ :: _) _ _ => apply logged_cons; find_logged_in
  end.




Section answers.

Variable decode : list Byte.byte -> string.
Variable parse : string -> string -> list TorrentInfo.






End answers.

(** ** A rate limiter that cannot sleep *)

Lemma check_rate_limit_negative_spec s Q :
  request_count (self s) + 1 < rate_limit_requests (self s) ->
  (rate_limit_delay (self s) < 0)%Q ->
  Q (Raise (ValueError "sleep length must be non-negative")) (counted 1 s) [] ->
  wp _check_rate_limit s Q.
Proof.
  intros Hlt Hd HQ. unfold wp. rewrite (check_rate_limit_negative_run s Hlt Hd). exact HQ.
Qed.

Section negative_delay.

Variable decode : list Byte.byte -> string.
Variable parse : string -> string -> list TorrentInfo.

Lemma get_torrents_by_state_negative_spec st s Q :
  request_count (self s) + 1 < rate_limit_requests (self s) ->
  (rate_limit_delay (self s) < 0)%Q ->
  (forall t, quiet t -> requests t = [] -> Q (Return None) (counted 1 s) t) ->
  wp (get_torrents_by_state decode parse st) s Q.
Proof.
  intros Hlt Hd HQ. unfold get_torrents_by_state. repeat wp_step.
  apply check_rate_limit_negative_spec; [done..|]. cbn [is_Exception]. repeat wp_step.
  apply HQ; [quiet_solve | by req_simpl].
Qed.

Lemma get_total_torrent_stats_negative_spec s Q :
  request_count (self s) + 1 < rate_limit_requests (self s) ->
  (rate_limit_delay (self s) < 0)%Q ->
  (forall t, quiet t -> requests t = [] -> Q (Return None) (counted 1 s) t) ->
  wp (get_total_torrent_stats decode) s Q.
Proof.
  intros Hlt Hd HQ. unfold get_total_torrent_stats. repeat wp_step.
  apply check_rate_limit_negative_spec; [done..|]. cbn [is_Exception]. repeat wp_step.
  apply HQ; [quiet_solve | by req_simpl].
Qed.

(** X6: with a negative short delay and the threshold more than three
    calls away, a whole cycle sends nothing: each of the three fetches
    fails in the rate limiter before its request, the cycle is counted and
    logged as a failure of both fetches, the world is as before, and the
    request counter has advanced by three. *)
Theorem perform_check_negative_delay s :
  (rate_limit_delay (self s) < 0)%Q ->
  request_count (self s) + 3 < rate_limit_requests (self s) ->
  let r := perform_check decode parse s in
  outcome r = Return tt /\
  world (final r) = world s /\
  request_count (self (final r)) = request_count (self s) + 3 /\
  stats (self (final r)) = aborted (clock (world s)) (reset_check (stats (self s)) 0) /\
  quiet (events r) /\
  logged (events r) ERROR error_both.
Proof.
  intros Hd Hlt.
  refine (_ : wp (perform_check decode parse) s (fun o s' t =>
    o = Return tt /\
    world s' = world s /\
    request_count (self s') = request_count (self s) + 3 /\
    stats (self s') = aborted (clock (world s)) (reset_check (stats (self s)) 0) /\
    quiet t /\
    logged t ERROR error_both)).
  unfold perform_check, fetch_phase. repeat wp_step.
  apply get_total_torrent_stats_negative_spec; [cbn; lia | done |]. intros t1 Hq1 _.
  repeat wp_step.
  apply get_torrents_by_state_negative_spec; [cbn; lia | done |]. intros t2 Hq2 _.
  repeat wp_step.
  apply get_torrents_by_state_negative_spec; [cbn; lia | done |]. intros t3 Hq3 _.
  repeat wp_step.
  unfold reconcile. cbn [is_not_None negb andb]. unfold count_check. wp_run.
  split; [done|]. split; [done|]. split; [cbn; lia|]. split; [reflexivity|].
  split; [quiet_solve|]. find_logged_in.
Qed.

End negative_delay.

(** ** What every cycle leaves behind *)

Section cycles.

Variable decode : list Byte.byte -> string.
Variable parse : string -> string -> list TorrentInfo.

Lemma len_map {A B} (f : A -> B) l : len (map f l) = len l.
Proof. unfold len. by rewrite length_map. Qed.

Lemma list_truthy_len {A} (l : list A) :
  (if list_truthy l then len l else 0) = len l.
Proof. by destruct l. Qed.

(** A cycle returns, counts as one check, and keeps the configuration. *)
Lemma perform_check_returns s :
  let r := perform_check decode parse s in
  outcome r = Return tt /\
  config (self (final r)) = config (self s) /\
  total_checks (stats (self (final r))) = total_checks (stats (self s)) + 1.
Proof.
  cbv zeta.
  destruct (fetch_phase_run decode parse s) as (b & u & n0 & Ho & _).
  destruct (perform_check_run decode parse s b u Ho) as (n & Hn & Hret & Hc & Hd & Hfail & Hgo).
  split; [done|]. split; [done|].
  destruct (is_not_None b || is_not_None u) eqn:E.
  - destruct (Hgo eq_refl) as (k & Hk & Hst & _). by rewrite Hst.
  - destruct b, u; try discriminate. destruct (Hfail eq_refl eq_refl) as (Hst & _).
    by rewrite Hst.
Qed.

(** X7: a cycle never raises, whatever the server answers and however the
    monitor is configured; it counts as exactly one check, keeps the
    configuration and the dry-run flag, and leaves a current-check record
    that is consistent: the two counts are the lengths of the identifier
    and name lists, and the repairs triggered lie between 0 and their
    sum. *)
Theorem perform_check_consistent s :
  let r := perform_check decode parse s in
  let after := stats (self (final r)) in
  let cc := current_check after in
  outcome r = Return tt /\
  config (self (final r)) = config (self s) /\
  dry_run (self (final r)) = dry_run (self s) /\
  total_checks after = total_checks (stats (self s)) + 1 /\
  cs_broken_found cc = len (broken_hashes cc) /\
  cs_broken_found cc = len (broken_names cc) /\
  cs_under_repair_found cc = len (under_repair_hashes cc) /\
  cs_under_repair_found cc = len (under_repair_names cc) /\
  0 <= cs_repairs_triggered cc <= cs_broken_found cc + cs_under_repair_found cc.
Proof.
  cbv zeta.
  destruct (fetch_phase_run decode parse s) as (b & u & n0 & Ho & _).
  destruct (perform_check_run decode parse s b u Ho) as (n & Hn & Hret & Hc & Hd & Hfail & Hgo).
  split; [done|]. split; [done|]. split; [done|].
  destruct (is_not_None b || is_not_None u) eqn:E.
  - destruct (Hgo eq_refl) as (k & Hk & Hst & _). rewrite Hst.
    unfold processed, reset_check, CheckStats_new. stats_simpl. cbn [app].
    rewrite !list_truthy_len, !len_map. repeat split; lia.
  - destruct b, u; try discriminate. destruct (Hfail eq_refl eq_refl) as (Hst & _).
    rewrite Hst. unfold aborted, reset_check, CheckStats_new. stats_simpl. done.
Qed.

(** X8: in dry-run mode a cycle posts nothing, yet every entity it found
    is counted as a repair triggered, in the current check and in the
    cumulative counter. *)
Theorem perform_check_dry_run s b u :
  dry_run (self s) = true ->
  outcome (fetch_phase decode parse s) = Return (b, u) ->
  let r := perform_check decode parse s in
  let after := stats (self (final r)) in
  let found := len (default [] b) + len (default [] u) in
  posts (events r) = [] /\
  triggers (events r) = map name (default [] b) ++ map name (default [] u) /\
  cs_repairs_triggered (current_check after) = found /\
  repairs_triggered after = repairs_triggered (stats (self s)) + found.
Proof.
  intros Hdry Ho. cbv zeta.
  destruct (perform_check_run decode parse s b u Ho) as (n & Hn & Hret & Hc & Hd & Hfail & Hgo).
  destruct (is_not_None b || is_not_None u) eqn:E.
  - destruct (Hgo eq_refl) as (k & Hk & Hst & Ht & _ & Hdr & _).
    destruct (Hdr Hdry) as [Hp ->]. rewrite Hst.
    unfold processed, reset_check, CheckStats_new. stats_simpl.
    repeat split; try done; lia.
  - destruct b, u; try discriminate.
    destruct (Hfail eq_refl eq_refl) as (Hst & [Ht Hp] & _).
    rewrite Hst. unfold aborted, reset_check, CheckStats_new. stats_simpl.
    cbn [default]. repeat split; try done; unfold len; cbn [length]; lia.
Qed.

(** X9: a cycle in which at least one category was fetched records what
    it found, whether or not the repairs it requested succeeded: the
    identifier and name lists of the current check are those of the two
    lists, in order; the lists kept for the next cycle are the same
    identifiers, [previous_check_triggered] being all of them, broken
    first; and when the total was fetched, the OK count is the total minus
    the two counts. *)
Theorem perform_check_snapshot s b u :
  outcome (fetch_phase decode parse s) = Return (b, u) ->
  is_not_None b || is_not_None u = true ->
  let bl := default [] b in
  let ul := default [] u in
  let after := stats (self (final (perform_check decode parse s))) in
  let cc := current_check after in
  broken_hashes cc = map hash bl /\
  broken_names cc = map name bl /\
  under_repair_hashes cc = map hash ul /\
  under_repair_names cc = map name ul /\
  previous_check_broken after = map hash bl /\
  previous_check_under_repair after = map hash ul /\
  previous_check_triggered after = map hash bl ++ map hash ul /\
  broken_found after = broken_found (stats (self s)) + len bl /\
  under_repair_found after = under_repair_found (stats (self s)) + len ul /\
  (0 < total_torrents cc -> ok_torrents cc + len bl + len ul = total_torrents cc) /\
  (total_torrents cc <= 0 -> ok_torrents cc = 0).
Proof.
  intros Ho Hsome. cbv zeta.
  destruct (perform_check_run decode parse s b u Ho) as (n & Hn & _ & _ & _ & _ & Hgo).
  destruct (Hgo Hsome) as (k & Hk & Hst & _). rewrite Hst.
  unfold processed, reset_check, CheckStats_new. stats_simpl. cbn [app].
  rewrite !list_truthy_len.
  do 6 (split; [reflexivity|]).
  split; [by destruct (default [] b), (default [] u)|].
  split; [reflexivity|]. split; [reflexivity|].
  destruct (Z.ltb_spec 0 n); split; intros; lia.
Qed.

End cycles.

(** ** The two modes *)



Section scheduling.

Variable decode : list Byte.byte -> string.
Variable parse : string -> string -> list TorrentInfo.

(** X10: [run_once] returns 0 exactly when the probe is answered with a
    non-empty body, and 1 otherwise.  After a failed probe no check is
    made and the statistics are untouched; after a successful one exactly
    one check is counted, whatever became of its fetches and repairs, and
    the overall report is the last thing written.  So a process started
    with [--run-once] and an interval that passes validation never ends in
    an exception: its exit status is 0 or 1 as the probe decides. *)
Theorem run_once_status s :
  let r := run_once decode parse s in
  outcome r = Return (if body_nonempty (next_response s) then 0 else 1) /\
  (body_nonempty (next_response s) = false ->
     stats (self (final r)) = stats (self s) /\ quiet (events r)) /\
  (body_nonempty (next_response s) = true ->
     total_checks (stats (self (final r))) = total_checks (stats (self s)) + 1 /\
     exists s' before, events r = before ++ events (show_overall_statistics s')) /\
  (forall base args n w,
     check_interval_rejected args = false -> a_run_once args = true ->
     exit_status (main decode parse base args n w).1 =
     if body_nonempty (net w (sent w)) then 0 else 1).
Proof.
  cut (forall s,
       let r := run_once decode parse s in
       outcome r = Return (if body_nonempty (next_response s) then 0 else 1) /\
       (body_nonempty (next_response s) = false ->
          stats (self (final r)) = stats (self s) /\ quiet (events r)) /\
       (body_nonempty (next_response s) = true ->
          total_checks (stats (self (final r))) = total_checks (stats (self s)) + 1 /\
          exists s' before, events r = before ++ events (show_overall_statistics s'))).
  { cbv zeta. intros Hall. destruct (Hall s) as (H1 & H2 & H3).
    split; [done|]. split; [done|]. split; [done|].
    intros base args n w Hrej Honce. unfold main. rewrite Hrej, Honce. cbn [fst].
    match goal with |- context [run_once decode parse ?s0] =>
      destruct (Hall s0) as (-> & _) end.
    unfold next_response. cbn [world exit_status]. by destruct (body_nonempty _). }
  clear s. intros s.
  refine (_ : wp (run_once decode parse) s (fun o s' t =>
    o = Return (if body_nonempty (next_response s) then 0 else 1) /\
    (body_nonempty (next_response s) = false ->
       stats (self s') = stats (self s) /\ quiet t) /\
    (body_nonempty (next_response s) = true ->
       total_checks (stats (self s')) = total_checks (stats (self s)) + 1 /\
       exists s'' before, t = before ++ events (show_overall_statistics s'')))).
  unfold run_once. wp_step. apply log_startup_spec. intros t0 Hq0. wp_simpl. wp_step.
  apply test_connection_spec. intros s1 t1 Hs1 Hq1.
  destruct (same_but_count_static _ _ Hs1) as (_ & _ & Hst1 & _).
  destruct (body_nonempty (next_response s)); cbn [negb]; repeat wp_step.
  - unfold wp at 1.
    destruct (perform_check_returns decode parse s1) as (Ho & _ & Htc).
    rewrite Ho. set (s2 := final (perform_check decode parse s1)) in *.
    repeat wp_step. unfold wp at 1.
    destruct (show_overall_statistics_pure s2) as [Ho2 Hf2]. rewrite Ho2, Hf2.
    repeat wp_step.
    split; [reflexivity|]. split; [intros [=]|]. intros _. split; [by rewrite Htc, Hst1|].
    exists s2. eexists. rewrite app_nil_r. rewrite !app_assoc. reflexivity.
  - split; [reflexivity|]. split; [|intros [=]]. intros _. split; [done|]. quiet_solve.
Qed.





End scheduling.

(** ** Configuration and logging *)

(** X13: merging the command line is idempotent; an empty string or a
    zero given for an option leaves the configured value in place;
    [--verbose] can switch console output on but nothing on the command
    line switches it off; and the trace flag brings the debug flag with
    it, whatever the configuration said. *)
Theorem load_config_merge base args :
  load_config (load_config base args) args = load_config base args /\
  (a_zurg_url args = Some "" -> zurg_url (load_config base args) = zurg_url base) /\
  (a_rate_limit args = Some 0 ->
     cfg_rate_limit_requests (load_config base args) = cfg_rate_limit_requests base) /\
  (a_check_interval args = Some 0 ->
     check_interval (load_config base args) = check_interval base) /\
  (verbose base = true -> verbose (load_config base args) = true) /\
  (trace (load_config base args) = true -> debug (load_config base args) = true) /\
  cfg_rate_limit_delay (load_config base args) = cfg_rate_limit_delay base /\
  rate_limit_backoff (load_config base args) = rate_limit_backoff base.
Proof.
  split.
  - unfold load_config. cbn.
    destruct (opt_str (a_zurg_url args)), (opt_str (a_username args)),
      (opt_str (a_password args)), (opt_int (a_check_interval args)),
      (opt_str (a_log_file args)), (opt_int (a_rate_limit args)), (a_verbose args);
      reflexivity.
  - unfold load_config. cbn. repeat split.
    + by intros ->.
    + by intros ->.
    + by intros ->.
    + intros ->. by destruct (a_verbose args).
    + intros ->. by rewrite orb_true_r.
Qed.

(** X14: [_log] only writes: it returns, leaves the state alone, and
    emits nothing but the file record and the console line of its
    message.  Whatever the level and the verbosity flags, a message shown
    on the console is also in the log file. *)
Theorem log_console_implies_file msg level s :
  let r := _log msg level s in
  outcome r = Return tt /\
  final r = s /\
  (forall e, e ∈ events r -> e = EvFile (level_map level) msg \/ e = EvConsole level msg) /\
  (EvConsole level msg ∈ events r -> EvFile (level_map level) msg ∈ events r).
Proof.
  cbv zeta. unfold _log, log_events. cbn [outcome final events].
  split; [done|]. split; [done|].
  assert (should_print (config (self s)) level = true ->
          should_log (config (self s)) level = true) as Himp.
  { destruct level; cbn; done. }
  destruct (should_log (config (self s)) level), (should_print (config (self s)) level);
    cbn [app]; split.
  all: try (intros e He; set_unfold; tauto).
  all: try (intros He; set_unfold; tauto).
  - intros _. by specialize (Himp eq_refl).
Qed.

Lemma in_file c msg lvl t :
  should_log c lvl = true -> EvFile (level_map lvl) msg ∈ log_events c msg lvl ++ t.
Proof. intros H. unfold log_events. rewrite H. cbn. apply elem_of_cons. by left. Qed.

Lemma in_later {A} (x : A) t1 t2 : x ∈ t2 -> x ∈ t1 ++ t2.
Proof. intros H. apply elem_of_app. by right. Qed.

(** Finds a record of the log file in a trace assembled from log lines. *)
Lemma in_earlier {A} (x : A) t1 t2 : x ∈ t1 -> x ∈ t1 ++ t2.
Proof. intros H. apply elem_of_app. by left. Qed.

Ltac find_in_file :=
  lazymatch goal with
  | |- EvFile _ ?m ∈ log_events ?c ?m ?l ++ _ => apply (in_file c m l); reflexivity
  | |- _ ∈ _ ++ _ =>
      first [ apply in_later; find_in_file | apply in_earlier; find_in_file ]
  end.

(** X15: the start-up lines report authentication as enabled as soon as a
    user name is configured, but credentials are attached to a request
    only when a password is configured too: with a user name and an empty
    password the log says [Enabled] and no [Authorization] header is
    built. *)
Theorem authentication_enabled_without_header s continuous :
  str_truthy (username (config (self s))) = true ->
  password (config (self s)) = "" ->
  outcome (_get_auth_headers s) = Return false /\
  EvFile logging_INFO [Lit "Authentication: "; Str "Enabled"]
    ∈ events (log_startup continuous s).
Proof.
  intros Hu Hp. split.
  - unfold _get_auth_headers, bind, get_self. cbn. rewrite Hu, Hp. reflexivity.
  - refine (_ : wp (log_startup continuous) s (fun _ _ t =>
                EvFile logging_INFO [Lit "Authentication: "; Str "Enabled"] ∈ t)).
    unfold log_startup, _log_banner. repeat wp_step. rewrite Hu.
    destruct continuous; repeat wp_step; destruct (dry_run (self s)); repeat wp_step;
      find_in_file.
Qed.

(** ** The summary *)

Lemma sum_1_for_bounds p l : 0 <= sum_1_for p l <= len l.
Proof.
  induction l as [|h l IH]; [done|]. cbn [sum_1_for]. rewrite len_cons.
  destruct (p h); lia.
Qed.

Lemma sum_1_for_all p l : sum_1_for p l = len l <-> forall h, h ∈ l -> p h = true.
Proof.
  induction l as [|h l IH].
  - split; [intros _ h Hh; by apply elem_of_nil in Hh | done].
  - cbn [sum_1_for]. rewrite len_cons. pose proof (sum_1_for_bounds p l) as Hb.
    destruct (p h) eqn:E; split.
    + intros Hs h' [->|Hh]%elem_of_cons; [done|]. apply IH; [lia | done].
    + intros Hall. assert (sum_1_for p l = len l); [|lia].
      apply IH. intros h' Hh. apply Hall. apply elem_of_cons. by right.
    + lia.
    + intros Hall. specialize (Hall h ltac:(apply elem_of_cons; by left)). congruence.
Qed.

Lemma sum_1_for_exclusive p q l :
  (forall h, p h = true -> q h = true -> False) ->
  sum_1_for p l + sum_1_for q l <= len l.
Proof.
  intros Hex. induction l as [|h l IH]; [done|]. cbn [sum_1_for]. rewrite len_cons.
  specialize (Hex h). destruct (p h), (q h); first [lia | by destruct Hex].
Qed.

(** X16: each of the five comparison metrics lies between 0 and the
    length of the list it ranges over; the repaired count reaches the
    number of repairs triggered in the previous check exactly when none of
    those identifiers is listed now;
    and when the two current lists share no identifier, an identifier
    broken in the previous check is counted as still broken or as moved to
    repair, never both. *)
Theorem comparison_metrics_bounds st :
  let cc := current_check st in
  0 <= repaired st <= len (previous_check_triggered st) /\
  0 <= moved_to_repair st <= len (previous_check_broken st) /\
  0 <= still_broken st <= len (previous_check_broken st) /\
  0 <= still_under_repair st <= len (previous_check_under_repair st) /\
  0 <= new_broken st <= len (broken_hashes cc) /\
  (repaired st = len (previous_check_triggered st) <->
     (forall h, h ∈ previous_check_triggered st ->
                (h ∉ broken_hashes cc) /\ (h ∉ under_repair_hashes cc))) /\
  (broken_hashes cc ## under_repair_hashes cc ->
     moved_to_repair st + still_broken st <= len (previous_check_broken st)).
Proof.
  cbv zeta. unfold repaired, moved_to_repair, still_broken, still_under_repair, new_broken.
  do 5 (split; [apply sum_1_for_bounds|]). split.
  - rewrite sum_1_for_all. split; intros H h Hh; specialize (H h Hh).
    + apply andb_prop in H as [H1 H2]. by rewrite str_in_false in H1, H2.
    + apply andb_true_intro. by rewrite !str_in_false.
  - intros Hdisj. apply sum_1_for_exclusive. intros h Hu Hb.
    apply str_in_true in Hu, Hb. by apply (Hdisj h).
Qed.

(** *** When the comparison is shown *)

Lemma not_in_log c msg lvl (e : Event) :
  e <> EvFile (level_map lvl) msg -> e <> EvConsole lvl msg ->
  e ∉ log_events c msg lvl.
Proof.
  intros H1 H2. unfold log_events.
  destruct (should_log c lvl), (should_print c lvl); cbn; intros Hin;
    repeat (apply elem_of_cons in Hin as [->|Hin]; [done|]);
    by apply elem_of_nil in Hin.
Qed.

Lemma for_each_log_not_in {A} (l : list A) (f : A -> Message) lvl e s
    (Q : Outcome unit -> State -> list Event -> Prop) :
  (forall x, e <> EvFile (level_map lvl) (f x) /\ e <> EvConsole lvl (f x)) ->
  (forall t, e ∉ t -> Q (Return tt) s t) ->
  wp (for_each l (fun x => _log (f x) lvl)) s Q.
Proof.
  intros Hf. revert Q. induction l as [|x l IH]; intros Q HQ.
  - apply wp_ret. apply HQ. intros Hin. by apply elem_of_nil in Hin.
  - cbn [for_each]. repeat wp_step. apply IH. intros t Ht. apply HQ.
    apply not_elem_of_app. split; [|done]. apply not_in_log; apply Hf.
Qed.

(** Shows that an event is not in a trace assembled from log lines of
    other messages and pieces known not to hold it. *)
Ltac not_in_trace :=
  repeat first
    [ assumption
    | match goal with |- _ ∉ [] => let H := fresh in intros H; by apply elem_of_nil in H end
    | apply not_in_log; discriminate
    | match goal with |- _ ∉ _ ++ _ => apply not_elem_of_app; split end ].

(** X17: the summary only reports: it returns and leaves the state, hence
    the statistics and the world, exactly as they were.  It shows the
    comparison with the previous check exactly when that check triggered
    at least one repair; after a healthy check, or at the first check of a
    process, there is none. *)
Theorem show_check_summary_comparison s :
  let r := show_check_summary s in
  outcome r = Return tt /\
  final r = s /\
  (EvFile logging_INFO [Lit "COMPARISON WITH PREVIOUS CHECK:"] ∈ events r <->
   previous_check_triggered (stats (self s)) <> []).
Proof.
  refine (_ : wp show_check_summary s (fun o s' t =>
    o = Return tt /\ s' = s /\
    (EvFile logging_INFO [Lit "COMPARISON WITH PREVIOUS CHECK:"] ∈ t <->
     previous_check_triggered (stats (self s)) <> []))).
  unfold show_check_summary. wp_simpl. wp_step.
  apply for_each_log_not_in with
      (e := EvFile logging_INFO [Lit "COMPARISON WITH PREVIOUS CHECK:"]);
      [intros x; split; discriminate|]. intros t0 Ht0. repeat wp_step.
  destruct (0 <? total_torrents _); repeat wp_step.
  all: destruct (list_truthy (broken_names _)); repeat wp_step;
    [ apply for_each_log_not_in with
      (e := EvFile logging_INFO [Lit "COMPARISON WITH PREVIOUS CHECK:"]);
      [intros x; split; discriminate|]; intros t1 Ht1 | ];
    repeat wp_step.
  all: destruct (list_truthy (under_repair_names _)); repeat wp_step;
    [ apply for_each_log_not_in with
      (e := EvFile logging_INFO [Lit "COMPARISON WITH PREVIOUS CHECK:"]);
      [intros x; split; discriminate|]; intros t2 Ht2 | ];
    repeat wp_step.
  all: destruct (previous_check_triggered (stats (self s))) as [|h l] eqn:Hpt;
    cbn [list_truthy]; repeat wp_step;
    [ | rewrite len_pos; repeat wp_step ].
  all: split; [reflexivity|]; split; [reflexivity|].
  all: split;
    [ intros Hin;
      first [ discriminate
            | exfalso; revert Hin;
              match goal with |- ?x ∈ ?t -> False => change (x ∉ t) end;
              not_in_trace ]
    | intros Hne; first [ by destruct Hne | find_in_file ] ].
Qed.

(** ** Strings *)

Lemma append_cons c a b : String c a +:+ b = String c (a +:+ b).
Proof. reflexivity. Qed.

Lemma append_nil_l a : "" +:+ a = a.
Proof. reflexivity. Qed.

Lemma append_assoc a b c : (a +:+ b) +:+ c = a +:+ (b +:+ c).
Proof.
  induction a as [|x a IH]; [reflexivity|]. rewrite !append_cons. by rewrite IH.
Qed.

Lemma length_append a b : String.length (a +:+ b) = (String.length a + String.length b)%nat.
Proof.
  induction a as [|x a IH]; [reflexivity|]. rewrite append_cons. cbn [String.length].
  by rewrite IH.
Qed.

Lemma substring_append pre g post :
  substring (String.length pre) (String.length g) (pre +:+ g +:+ post) = g.
Proof.
  induction pre as [|x pre IH].
  - rewrite append_nil_l. cbn [String.length]. induction g as [|y g IHg].
    + by destruct post.
    + rewrite append_cons. cbn [String.length substring]. by rewrite IHg.
  - rewrite append_cons. cbn [String.length substring]. exact IH.
Qed.

Lemma all_of_is_hex g : all_of is_hex g = all_hex g.
Proof. induction g as [|c g IH]; [done|]. cbn [all_of all_hex]. by rewrite IH. Qed.

(** ** The matcher *)

Lemma match_text_inv k lit s pos m :
  match_text k lit s pos = Some m ->
  exists s', s = lit +:+ s' /\ k s' (pos + String.length lit)%nat = Some m.
Proof.
  revert s pos. induction lit as [|c lit IH]; intros s pos H.
  - exists s. split; [done|]. cbn [String.length]. by rewrite Nat.add_0_r.
  - cbn [match_text] in H. destruct s as [|d s]; [done|].
    destruct (Ascii.eqb_spec c d) as [->|]; [|done].
    apply IH in H as (s' & -> & H). exists s'. split; [done|].
    cbn [String.length]. by rewrite Nat.add_succ_r.
Qed.

Lemma match_exactly_inv k n class s pos m :
  match_exactly k n class s pos = Some m ->
  exists g s', s = g +:+ s' /\ String.length g = n /\ all_of class g = true /\
               k s' (pos + n)%nat = Some m.
Proof.
  revert s pos. induction n as [|n IH]; intros s pos H.
  - exists "", s. rewrite Nat.add_0_r. done.
  - cbn [match_exactly] in H. destruct s as [|c s]; [done|].
    destruct (class c) eqn:Hc; [|done].
    apply IH in H as (g & s' & -> & Hl & Hg & H). exists (String c g), s'.
    cbn [String.length all_of]. rewrite Hc, Hg, Hl, Nat.add_succ_r. done.
Qed.

Lemma match_star_inv k class s pos m :
  match_star k class s pos = Some m ->
  exists a s', s = a +:+ s' /\ all_of class a = true /\
               k s' (pos + String.length a)%nat = Some m.
Proof.
  revert pos. induction s as [|c s IH]; intros pos H.
  - exists "", "". cbn [String.length]. rewrite Nat.add_0_r. done.
  - cbn [match_star] in H.
    assert (k (String c s) pos = Some m ->
            exists a s', String c s = a +:+ s' /\ all_of class a = true /\
                         k s' (pos + String.length a)%nat = Some m) as Hk.
    { intros Hk. exists "", (String c s). cbn [String.length]. rewrite Nat.add_0_r. done. }
    destruct (class c) eqn:Hc; [|by apply Hk].
    destruct (match_star k class s (S pos)) as [m'|] eqn:Hs; [|by apply Hk].
    injection H as ->. apply IH in Hs as (a & s' & -> & Ha & Hs).
    exists (String c a), s'. cbn [String.length all_of]. rewrite Hc, Ha, Nat.add_succ_r. done.
Qed.

Lemma identifier_of g :
  String.length g = 40%nat -> all_of is_hex g = true -> identifier g.
Proof. intros Hl Hh. split; [done|]. by rewrite <- all_of_is_hex. Qed.

(** A match of the row pattern is a [<tr] tag that carries a [data-hash]
    attribute; group 1 is the value of the attribute. *)
Lemma match_row_inv s m :
  match_at row_pattern s = Some m ->
  exists a g b rest,
    s = "<tr" +:+ a +:+ data_hash_before +:+ g +:+ data_hash_after +:+ b +:+ ">" +:+ rest /\
    identifier g /\
    substring (g_start m) (g_end m - g_start m) s = g /\
    (1 <= m_end m)%nat.
Proof.
  unfold match_at, row_pattern. cbn [match_items]. intros H.
  apply match_text_inv in H as (s1 & -> & H).
  apply match_star_inv in H as (a & s2 & -> & Ha & H).
  apply match_text_inv in H as (s3 & -> & H).
  apply match_exactly_inv in H as (g & s4 & -> & Hl & Hg & H).
  apply match_text_inv in H as (s5 & -> & H).
  apply match_star_inv in H as (b & s6 & -> & Hb & H).
  apply match_text_inv in H as (rest & -> & H).
  injection H as <-. cbn [m_end g_start g_end].
  exists a, g, b, rest. split; [reflexivity|]. split; [by apply identifier_of|].
  split; [|cbn [String.length]; lia].
  etransitivity;
    [|apply (substring_append ("<tr" +:+ a +:+ "data-hash=" +:+ dquote) g
               (dquote +:+ b +:+ ">" +:+ rest))].
  f_equal.
  - rewrite !length_append. unfold dquote. cbn [String.length]. lia.
  - rewrite Hl. lia.
  - by rewrite !append_assoc.
Qed.

Lemma match_link_inv s m :
  match_at link_pattern s = Some m ->
  exists g rest,
    s = manage_link_before +:+ g +:+ manage_link_after +:+ rest /\
    identifier g /\
    substring (g_start m) (g_end m - g_start m) s = g /\
    (1 <= m_end m)%nat.
Proof.
  unfold match_at, link_pattern. cbn [match_items]. intros H.
  apply match_text_inv in H as (s1 & -> & H).
  apply match_exactly_inv in H as (g & s2 & -> & Hl & Hg & H).
  apply match_text_inv in H as (rest & -> & H).
  injection H as <-. cbn [m_end g_start g_end].
  exists g, rest. split; [reflexivity|]. split; [by apply identifier_of|].
  split; [|lia].
  etransitivity; [|apply (substring_append manage_link_before g (manage_link_after +:+ rest))].
  f_equal; first [lia | rewrite Hl; lia].
Qed.

(** Every match object of a scan is a match of the pattern at its start. *)
Lemma scan_sound p s pos skip mo :
  mo ∈ scan p s pos skip ->
  exists pre suf m,
    s = pre +:+ suf /\ match_at p suf = Some m /\
    group_1 mo = substring (g_start m) (g_end m - g_start m) suf.
Proof.
  revert pos skip. induction s as [|c s IH]; intros pos skip H.
  - by apply elem_of_nil in H.
  - cbn [scan] in H.
    assert (forall pos' skip', mo ∈ scan p s pos' skip' ->
              exists pre suf m, String c s = pre +:+ suf /\ match_at p suf = Some m /\
                group_1 mo = substring (g_start m) (g_end m - g_start m) suf) as Hrec.
    { intros pos' skip' Hin. apply IH in Hin as (pre & suf & m & -> & Hm & Hg).
      by exists (String c pre), suf, m. }
    destruct skip as [|n]; [|by eapply Hrec].
    destruct (match_at p (String c s)) as [m|] eqn:Hm; [|by eapply Hrec].
    apply elem_of_cons in H as [->|H]; [|by eapply Hrec].
    by exists "", (String c s), m.
Qed.

(** ** The category extractor *)

Lemma lower_char_hex c : is_hex c = true -> is_hex (lower_char c) = true.
Proof. destruct c as [[] [] [] [] [] [] [] []]; try discriminate; reflexivity. Qed.

Lemma lower_char_idemp c : lower_char (lower_char c) = lower_char c.
Proof. destruct c as [[] [] [] [] [] [] [] []]; reflexivity. Qed.

Lemma lower_idemp s : lower (lower s) = lower s.
Proof.
  induction s as [|c s IH]; [done|]. cbn [lower]. by rewrite lower_char_idemp, IH.
Qed.

Lemma lower_identifier g : identifier g -> identifier (lower g).
Proof.
  intros [Hl Hh]. split.
  - rewrite <- Hl. clear. induction g as [|c g IH]; [done|]. cbn [lower String.length].
    by rewrite IH.
  - clear Hl. induction g as [|c g IH]; [done|]. cbn [lower all_hex] in *.
    apply andb_prop in Hh as [Hc Hh]. by rewrite lower_char_hex, IH.
Qed.

Section extractor_facts.

Variable extract : string -> string -> string.

(** What the loop over the matches keeps: [processed_hashes] is the set
    of the identifiers collected, none is collected twice, and the new
    entries come from the matches. *)
Lemma add_torrent_fold st w ms ts seen :
  seen = list_to_set (map hash ts) ->
  NoDup (map hash ts) ->
  let r := fold_left (add_torrent extract st w) ms (ts, seen) in
  r.2 = list_to_set (map hash r.1) /\
  NoDup (map hash r.1) /\
  exists new,
    r.1 = ts ++ new /\
    Forall (fun t => state t = st /\
                     exists m, m ∈ ms /\ hash t = lower (group_1 m) /\
                               name t = extract (w m) (hash t)) new.
Proof.
  cbv zeta. revert ts seen.
  induction ms as [|m ms IH]; intros ts seen Hseen Hnd; cbn [fold_left].
  - cbn. split; [done|]. split; [done|]. exists []. by rewrite app_nil_r.
  - destruct (decide (lower (group_1 m) ∈ seen)) as [Hin|Hin].
    + assert (add_torrent extract st w (ts, seen) m = (ts, seen)) as ->
        by (unfold add_torrent; by rewrite bool_decide_eq_true_2).
      destruct (IH ts seen Hseen Hnd) as (H1 & H2 & new & H3 & H4).
      split; [done|]. split; [done|]. exists new. split; [done|].
      eapply Forall_impl; [exact H4|]. intros t (Hst & m' & Hm' & Hh).
      split; [done|]. exists m'. split; [apply elem_of_cons; by right | done].
    + set (t0 := {| hash := lower (group_1 m);
                    name := extract (w m) (lower (group_1 m));
                    state := st |}).
      assert (add_torrent extract st w (ts, seen) m =
              (ts ++ [t0], {[lower (group_1 m)]} ∪ seen)) as ->
        by (unfold add_torrent; by rewrite bool_decide_eq_false_2).
      destruct (IH (ts ++ [t0]) ({[lower (group_1 m)]} ∪ seen)) as (H1 & H2 & new & H3 & H4).
      * rewrite map_app. cbn [map hash t0]. rewrite list_to_set_app_L, Hseen.
        cbn [list_to_set]. apply set_eq. intros x. set_unfold. tauto.
      * rewrite map_app. cbn [map]. apply NoDup_app. split; [done|]. split.
        -- intros h Hh [->|[]%elem_of_nil]%elem_of_cons. apply Hin. rewrite Hseen.
           by apply elem_of_list_to_set.
        -- apply NoDup_singleton.
      * split; [done|]. split; [done|]. exists (t0 :: new). split.
        -- rewrite H3. by rewrite <- app_assoc.
        -- constructor.
           ++ split; [done|]. exists m. split; [apply elem_of_cons; by left | done].
           ++ eapply Forall_impl; [exact H4|]. intros t (Hst & m' & Hm' & Hh).
              split; [done|]. exists m'. split; [apply elem_of_cons; by right | done].
Qed.

(** What the extractor returns, in terms of the matches of the pattern it
    ended up using. *)
Lemma parse_torrents_matches content st :
  let ts := _parse_torrents_from_html extract content st in
  let rows := re_finditer row_pattern content in
  let used := if (length rows =? 0)%nat then re_finditer link_pattern content else rows in
  NoDup (map hash ts) /\
  Forall (fun t => state t = st /\ exists m, m ∈ used /\ hash t = lower (group_1 m)) ts.
Proof.
  cbv zeta. unfold _parse_torrents_from_html.
  pose proof (add_torrent_fold st (row_content content)
                (re_finditer row_pattern content) [] ∅ eq_refl NoDup_nil_2)
    as (H1 & H2 & new & H3 & H4).
  destruct (fold_left _ (re_finditer row_pattern content) _) as [ts seen] eqn:E.
  cbn [fst snd] in *.
  destruct (length (re_finditer row_pattern content) =? 0)%nat eqn:El.
  - apply Nat.eqb_eq in El. apply length_zero_iff_nil in El. rewrite El in E. cbn in E.
    injection E as <- <-.
    pose proof (add_torrent_fold st (link_context content)
                  (re_finditer link_pattern content) [] ∅ eq_refl NoDup_nil_2)
      as (H1' & H2' & new' & H3' & H4').
    split; [done|]. rewrite H3'. cbn [app].
    eapply Forall_impl; [exact H4'|]. intros t (Hst & m & Hm & Hh & _).
    split; [done|]. by exists m.
  - split; [done|]. rewrite H3. cbn [app].
    eapply Forall_impl; [exact H4|]. intros t (Hst & m & Hm & Hh & _).
    split; [done|]. by exists m.
Qed.

(** The identifiers returned are distinct, well formed and in lower case. *)
Lemma parse_torrents_hashes content st :
  let hs := map hash (_parse_torrents_from_html extract content st) in
  NoDup hs /\ Forall (fun h => identifier h /\ lower h = h) hs.
Proof.
  cbv zeta. destruct (parse_torrents_matches content st) as [Hnd Hall].
  split; [done|]. apply Forall_fmap. eapply Forall_impl; [exact Hall|].
  intros t (_ & m & Hm & Hh). cbn. rewrite Hh.
  split; [|apply lower_idemp]. apply lower_identifier.
  destruct (length (re_finditer row_pattern content) =? 0)%nat.
  - apply scan_sound in Hm as (pre & suf & f & _ & Hf & ->).
    by apply match_link_inv in Hf as (g & rest & _ & Hid & -> & _).
  - apply scan_sound in Hm as (pre & suf & f & _ & Hf & ->).
    by apply match_row_inv in Hf as (a & g & b & rest & _ & Hid & -> & _).
Qed.

(** X18: whatever the markup, the records the extractor returns carry
    pairwise distinct identifiers, each of 40 hexadecimal characters in
    lower case, and the state it was asked for. *)
Theorem parse_torrents_well_formed content st :
  let ts := _parse_torrents_from_html extract content st in
  NoDup (map hash ts) /\
  Forall (fun t => state t = st /\ identifier (hash t) /\ lower (hash t) = hash t) ts.
Proof.
  cbv zeta. destruct (parse_torrents_matches content st) as [_ Hall].
  destruct (parse_torrents_hashes content st) as [Hnd Hh].
  split; [done|]. rewrite Forall_fmap in Hh. rewrite Forall_forall in Hall, Hh |- *.
  intros t Ht. destruct (Hall t Ht) as [Hst _]. specialize (Hh t Ht). cbn in Hh. tauto.
Qed.


Lemma add_torrent_state st st' w ms ts seen :
  fold_left (add_torrent extract st' w) ms (map (with_state st') ts, seen) =
  (map (with_state st') (fold_left (add_torrent extract st w) ms (ts, seen)).1,
   (fold_left (add_torrent extract st w) ms (ts, seen)).2).
Proof.
  revert ts seen. induction ms as [|m ms IH]; intros ts seen; cbn [fold_left]; [done|].
  destruct (decide (lower (group_1 m) ∈ seen)) as [Hin|Hin].
  - assert (forall x l, add_torrent extract x w (l, seen) m = (l, seen)) as Hadd
      by (intros; unfold add_torrent; by rewrite bool_decide_eq_true_2).
    rewrite !Hadd. apply IH.
  - assert (forall x l, add_torrent extract x w (l, seen) m =
              (l ++ [{| hash := lower (group_1 m);
                        name := extract (w m) (lower (group_1 m));
                        state := x |}], {[lower (group_1 m)]} ∪ seen)) as Hadd
      by (intros; unfold add_torrent; by rewrite bool_decide_eq_false_2).
    rewrite !Hadd. rewrite <- IH. f_equal. f_equal. by rewrite map_app.
Qed.

(** X20: the extractor never looks for the state in the markup: asked for
    another state, it returns the same records with that state written
    in.  Which entities are broken and which under repair is decided by
    the page requested, not by its content. *)
Theorem parse_torrents_state_blind content st st' :
  _parse_torrents_from_html extract content st' =
  map (with_state st') (_parse_torrents_from_html extract content st).
Proof.
  unfold _parse_torrents_from_html.
  pose proof (add_torrent_state st st' (row_content content)
                (re_finditer row_pattern content) [] ∅) as Hrows.
  cbn [map] in Hrows. rewrite Hrows.
  destruct (fold_left (add_torrent extract st (row_content content)) _ _) as [ts seen].
  cbn [fst snd].
  destruct (length (re_finditer row_pattern content) =? 0)%nat; [|done].
  by rewrite (add_torrent_state st st').
Qed.

End extractor_facts.

(** ** The extractor in the cycle *)

Section shapes.

Variable decode : list Byte.byte -> string.
Variable parse : string -> string -> list TorrentInfo.

(** A category fetch returns [None] or the extractor applied to a decoded
    body, whatever the rate limiter and the server do. *)
Lemma get_torrents_by_state_shape st s Q :
  (forall r s' t,
     (forall l, r = Some l -> exists c, l = parse (decode c) st) ->
     Q (Return r) s' t) ->
  wp (get_torrents_by_state decode parse st) s Q.
Proof.
  intros HQ. unfold get_torrents_by_state. repeat wp_step.
  apply check_rate_limit_spec.
  intros o s1 t1 Hsame Hsent Hq Hexc Hok. destruct o as [[]|e].
  - repeat wp_step. apply make_request_spec. intros t2 Ht2 Hp2.
    destruct (next_response s1) as [c| | |]; cbn [content_of]; repeat wp_step.
    all: apply HQ; first [ intros l [= <-]; by exists c | intros l [=] ].
  - rewrite (Hexc e eq_refl). repeat wp_step. apply HQ. intros l [=].
Qed.

Lemma fetch_phase_shape s :
  exists b u,
    outcome (fetch_phase decode parse s) = Return (b, u) /\
    (forall l, b = Some l -> exists c, l = parse (decode c) "status_broken") /\
    (forall l, u = Some l -> exists c, l = parse (decode c) "status_under_repair").
Proof.
  refine (_ : wp (fetch_phase decode parse) s (fun o _ _ =>
    exists b u, o = Return (b, u) /\
      (forall l, b = Some l -> exists c, l = parse (decode c) "status_broken") /\
      (forall l, u = Some l -> exists c, l = parse (decode c) "status_under_repair"))).
  unfold fetch_phase. repeat wp_step.
  apply get_total_torrent_stats_spec. intros r s1 t1 _ _ _ _. wp_simpl.
  apply wp_bind.
  assert (Hrest : forall s1' (Q' : Outcome _ -> State -> list Event -> Prop),
            (forall b u s3 t,
               (forall l, b = Some l -> exists c, l = parse (decode c) "status_broken") ->
               (forall l, u = Some l -> exists c, l = parse (decode c) "status_under_repair") ->
               Q' (Return (b, u)) s3 t) ->
            wp (broken_torrents <- get_torrents_by_state decode parse "status_broken" ;;
                under_repair_torrents <-
                  get_torrents_by_state decode parse "status_under_repair" ;;
                ret (broken_torrents, under_repair_torrents)) s1' Q').
  { intros s1' Q' HQ'. repeat wp_step.
    apply get_torrents_by_state_shape. intros b s2 t2 Hb. repeat wp_step.
    apply get_torrents_by_state_shape. intros u s3 t3 Hu. repeat wp_step.
    by apply HQ'. }
  destruct r as [total|]; wp_step; apply Hrest; intros b u s3 t Hb Hu; by exists b, u.
Qed.

End shapes.

Section pipeline.

Variable decode : list Byte.byte -> string.
Variable extract : string -> string -> string.

(** X21: with the extractor of the source in place, every cycle leaves
    identifier lists without duplicates: the two lists of the current
    check always are, made of lower-case identifiers only, and the two
    lists kept for the next cycle are if they were before the cycle. *)
Theorem perform_check_duplicate_free s :
  let parse := _parse_torrents_from_html extract in
  let after := stats (self (final (perform_check decode parse s))) in
  let cc := current_check after in
  NoDup (broken_hashes cc) /\
  NoDup (under_repair_hashes cc) /\
  Forall (fun h => identifier h /\ lower h = h)
         (broken_hashes cc ++ under_repair_hashes cc) /\
  (duplicate_free (stats (self s)) -> duplicate_free after).
Proof.
  cbv zeta. set (parse := _parse_torrents_from_html extract).
  destruct (fetch_phase_shape decode parse s) as (b & u & Ho & Hb & Hu).
  destruct (perform_check_run decode parse s b u Ho) as (n & Hn & _ & _ & _ & Hfail & Hgo).
  assert (forall o st l,
            (forall l, o = Some l -> exists c, l = parse (decode c) st) ->
            default [] o = l ->
            NoDup (map hash l) /\ Forall (fun h => identifier h /\ lower h = h) (map hash l))
    as Hwf.
  { intros o st l Ho' <-. destruct o as [l|]; cbn [default map]; [|split; constructor].
    destruct (Ho' l eq_refl) as (c & ->).
    apply (parse_torrents_hashes extract (decode c) st). }
  destruct (is_not_None b || is_not_None u) eqn:E.
  - destruct (Hgo eq_refl) as (k & Hk & Hst & _). rewrite Hst.
    unfold duplicate_free, processed, reset_check, CheckStats_new. stats_simpl. cbn [app].
    destruct (Hwf b "status_broken" _ Hb eq_refl) as [Hb1 Hb2].
    destruct (Hwf u "status_under_repair" _ Hu eq_refl) as [Hu1 Hu2].
    split; [done|]. split; [done|]. split; [by apply Forall_app|]. done.
  - destruct b, u; try discriminate. destruct (Hfail eq_refl eq_refl) as (Hst & _).
    rewrite Hst. unfold duplicate_free, aborted, reset_check, CheckStats_new. stats_simpl.
    split; [constructor|]. split; [constructor|]. split; [constructor|].
    intros (_ & _ & Hpb & Hpu). repeat split; try done; constructor.
Qed.

End pipeline.

(** ** Repairs requested and repairs counted *)

Lemma answered_bounds net from count : 0 <= answered net from count <= Z.of_nat count.
Proof.
  revert from. induction count as [|count IH]; intros from; [done|].
  cbn [answered]. specialize (IH (S from)). destruct (body_received (net from)); lia.
Qed.






Section accounting.

Variable decode : list Byte.byte -> string.
Variable parse : string -> string -> list TorrentInfo.



End accounting.

(** ** The summary inside the cycle *)

Lemma show_check_summary_pure s :
  outcome (show_check_summary s) = Return tt /\ final (show_check_summary s) = s.
Proof.
  refine (_ : wp show_check_summary s (fun o s' _ => o = Return tt /\ s' = s)).
  by apply show_check_summary_spec.
Qed.

(** The summary is the last thing the cycle proper writes, and it is
    computed when the lists of the current check are complete and those
    of the previous check still in place. *)
Lemma process_summary_spec bl ul s Q :
  (forall s' t m before,
     t = before ++ events (show_check_summary m) ->
     broken_hashes (current_check (stats (self m))) =
       broken_hashes (current_check (stats (self s))) ++ map hash bl ->
     under_repair_hashes (current_check (stats (self m))) =
       under_repair_hashes (current_check (stats (self s))) ++ map hash ul ->
     previous_check_broken (stats (self m)) = previous_check_broken (stats (self s)) ->
     previous_check_under_repair (stats (self m)) =
       previous_check_under_repair (stats (self s)) ->
     previous_check_triggered (stats (self m)) = previous_check_triggered (stats (self s)) ->
     Q (Return tt) s' t) ->
  wp (process bl ul) s Q.
Proof.
  intros HQ.
  destruct s as [[c d [tc bf uf rt lc lb [cb cu cr bh bn uh un tot ok] pb pu pt] rd rr rc] w].
  unfold process, count_check. wp_run.
  destruct bl as [|x bl], ul as [|y ul]; list_conds; wp_run.
  - destruct (0 <? tot) eqn:Htot; wp_run.
    all: unfold wp at 1;
      match goal with |- context [show_check_summary ?m] =>
        destruct (show_check_summary_pure m) as [Ho Hf]; rewrite Ho, Hf;
        set (mid := m) in * end.
    all: wp_run.
    all: eapply (HQ _ _ mid); [rewrite app_nil_r, ?app_assoc; reflexivity | ..];
      subst mid; cbn; by rewrite ?app_nil_r.
  - destruct (0 <? tot) eqn:Htot; wp_run.
    all: apply display_under_repair_spec; intros s1 t1 Hf1 Hw1 Hst1 Hq1; wp_run.
    all: apply trigger_all_spec; intros s2 t2 k2 Hf2 Hk2 Hst2 Ht2 Hsub2 Hd2 Hr2; wp_run.
    all: unfold wp at 1;
      match goal with |- context [show_check_summary ?m] =>
        destruct (show_check_summary_pure m) as [Ho Hf]; rewrite Ho, Hf;
        set (mid := m) in * end.
    all: wp_run.
    all: stats_simpl_in Hst1.
    all: eapply (HQ _ _ mid); [rewrite app_nil_r, ?app_assoc; reflexivity | ..];
      subst mid; stats_goal; by rewrite ?app_nil_r.
  - destruct (0 <? tot) eqn:Htot; wp_run.
    all: apply display_broken_spec; intros s1 t1 Hf1 Hw1 Hst1 Hq1; wp_run.
    all: apply trigger_all_spec; intros s2 t2 k2 Hf2 Hk2 Hst2 Ht2 Hsub2 Hd2 Hr2; wp_run.
    all: unfold wp at 1;
      match goal with |- context [show_check_summary ?m] =>
        destruct (show_check_summary_pure m) as [Ho Hf]; rewrite Ho, Hf;
        set (mid := m) in * end.
    all: wp_run.
    all: stats_simpl_in Hst1.
    all: eapply (HQ _ _ mid); [rewrite app_nil_r, ?app_assoc; reflexivity | ..];
      subst mid; stats_goal; by rewrite ?app_nil_r.
  - destruct (0 <? tot) eqn:Htot; wp_run.
    all: apply display_broken_spec; intros s1 t1 Hf1 Hw1 Hst1 Hq1; wp_run.
    all: apply display_under_repair_spec; intros s1' t1' Hf1' Hw1' Hst1' Hq1'; wp_run.
    all: apply trigger_all_spec; intros s2 t2 k2 Hf2 Hk2 Hst2 Ht2 Hsub2 Hd2 Hr2; wp_run.
    all: apply trigger_all_spec; intros s3 t3 k3 Hf3 Hk3 Hst3 Ht3 Hsub3 Hd3 Hr3; wp_run.
    all: unfold wp at 1;
      match goal with |- context [show_check_summary ?m] =>
        destruct (show_check_summary_pure m) as [Ho Hf]; rewrite Ho, Hf;
        set (mid := m) in * end.
    all: wp_run.
    all: stats_simpl_in Hst1.
    all: eapply (HQ _ _ mid); [rewrite app_nil_r, ?app_assoc; reflexivity | ..];
      subst mid; stats_goal; by rewrite ?app_nil_r.
Qed.

Section comparison.

Variable decode : list Byte.byte -> string.
Variable parse : string -> string -> list TorrentInfo.

(** X23: the comparison a cycle prints sets the lists it has just fetched
    against the lists kept from the previous cycle: when that cycle
    triggered repairs and at least one category was fetched now, the five
    numbers logged are the metrics of [show_check_summary] computed from
    the identifiers fetched in this cycle and the three lists the
    statistics held when the cycle began. *)
Theorem perform_check_comparison s b u :
  outcome (fetch_phase decode parse s) = Return (b, u) ->
  is_not_None b || is_not_None u = true ->
  previous_check_triggered (stats (self s)) <> [] ->
  let st := stats (self s) in
  let now_broken := map hash (default [] b) in
  let now_under_repair := map hash (default [] u) in
  let t := events (perform_check decode parse s) in
  logged t OUTPUT
    [Lit "  Successfully Repaired:     ";
     Int (sum_1_for (fun h => negb (str_in h now_broken) && negb (str_in h now_under_repair))
                    (previous_check_triggered st))] /\
  logged t OUTPUT
    [Lit "  Moved to Repair:           ";
     Int (sum_1_for (fun h => str_in h now_under_repair) (previous_check_broken st))] /\
  logged t OUTPUT
    [Lit "  Still Broken:              ";
     Int (sum_1_for (fun h => str_in h now_broken) (previous_check_broken st))] /\
  logged t OUTPUT
    [Lit "  Still Under Repair:        ";
     Int (sum_1_for (fun h => str_in h now_under_repair) (previous_check_under_repair st))] /\
  logged t OUTPUT
    [Lit "  New Broken:                ";
     Int (sum_1_for (fun h => negb (str_in h (previous_check_broken st)) &&
                              negb (str_in h (previous_check_under_repair st)))
                    now_broken)].
Proof.
  intros Ho Hsome Hpt. cbv zeta.
  destruct (fetch_phase_run decode parse s) as (b' & u' & n & Ho' & Hn & Hst & _).
  unfold perform_check. rewrite (bind_return _ _ _ _ Ho). cbn [outcome final events].
  remember (final (fetch_phase decode parse s)) as s1 eqn:Hs1. clear Hs1.
  remember (events (fetch_phase decode parse s)) as t1 eqn:Ht1. clear Ht1.
  unfold static in Hst.
  cbn [config dry_run stats rate_limit_delay rate_limit_requests set_stats] in Hst.
  injection Hst as _ _ Hst1 _ _.
  pattern (t1 ++ events (reconcile (b, u) s1)).
  match goal with |- ?P0 _ => set (P := P0) end.
  refine (_ : wp (reconcile (b, u)) s1 (fun _ _ t => P (t1 ++ t))).
  assert (Hproc : forall pre,
            wp (process (default [] b) (default [] u)) s1
               (fun _ _ t => P (t1 ++ pre ++ t))).
  { intros pre. apply process_summary_spec.
    intros s' t m before -> Hbh Huh Hpb Hpu Hptm.
    rewrite Hst1 in Hbh, Huh, Hpb, Hpu, Hptm.
    unfold reset_check, CheckStats_new in Hbh, Huh, Hpb, Hpu, Hptm.
    stats_simpl_in Hbh. stats_simpl_in Huh. stats_simpl_in Hpb. stats_simpl_in Hpu.
    stats_simpl_in Hptm. cbn [app] in Hbh, Huh.
    destruct (show_check_summary_reports m) as (H1 & H2 & H3 & H4 & H5).
    { rewrite Hptm. by destruct (previous_check_triggered (stats (self s))). }
    unfold repaired, moved_to_repair, still_broken, still_under_repair, new_broken in *.
    rewrite Hbh, Huh, Hpb, Hpu, Hptm in *.
    subst P. cbv beta.
    repeat split; do 3 apply logged_later; assumption. }
  unfold reconcile.
  destruct b as [bl|], u as [ul|]; cbn [is_not_None negb andb orb default] in *;
    try discriminate; wp_run.
  - apply (Hproc []).
  - rewrite app_nil_r. apply Hproc.
  - rewrite app_nil_r. apply Hproc.
Qed.

End comparison.

(** ** The probe *)


(** ** The further properties on sample runs *)






Lemma perform_check_negative_delay_witness :
  let s := start (tuned 10 (-1 # 1) 30) false (serving [listing]) in
  let r := perform_check decode_ascii rows_only s in
  outcome r = Return tt /\ world (final r) = world s /\
  logged (events r) ERROR error_both.
Proof.
  intros s r.
  destruct (perform_check_negative_delay decode_ascii rows_only s)
    as (Ho & Hw & _ & _ & _ & Hl).
  - by vm_compute.
  - by vm_compute.
  - split; [exact Ho|]. split; [exact Hw | exact Hl].
Defined.

Lemma perform_check_dry_run_witness :
  let s := start (default_config "/opt") true (serving [listing; listing; empty_listing]) in
  let r := perform_check decode_ascii rows_only s in
  posts (events r) = [] /\
  cs_repairs_triggered (current_check (stats (self (final r)))) = 2 + 0.
Proof.
  intros s r.
  destruct (perform_check_dry_run decode_ascii rows_only s
              (Some (rows_only listing "status_broken")) (Some []))
    as (Hp & _ & Hk & _).
  - reflexivity.
  - vm_compute. reflexivity.
  - split; [exact Hp | exact Hk].
Defined.

Lemma perform_check_snapshot_witness :
  let s := fresh (serving [listing; listing; empty_listing]) in
  let after := stats (self (final (perform_check decode_ascii rows_only s))) in
  previous_check_broken after = map hash (rows_only listing "status_broken") /\
  previous_check_triggered after = map hash (rows_only listing "status_broken") ++ [].
Proof.
  intros s after.
  destruct (perform_check_snapshot decode_ascii rows_only s
              (Some (rows_only listing "status_broken")) (Some []))
    as (_ & _ & _ & _ & Hpb & _ & Hpt & _).
  - vm_compute. reflexivity.
  - reflexivity.
  - split; [exact Hpb | exact Hpt].
Defined.

Lemma run_once_status_witness :
  let s := fresh (serving [""]) in
  let r := run_once decode_ascii rows_only s in
  outcome r = Return 1 /\
  stats (self (final r)) = stats (self s) /\
  exit_status (main decode_ascii rows_only (default_config "/opt") zero_interval_once 0
                 (serving [""])).1 = 1.
Proof.
  intros s r.
  destruct (run_once_status decode_ascii rows_only s) as (Ho & Hfail & _ & Hmain).
  split; [exact Ho|]. split.
  - apply Hfail. reflexivity.
  - apply Hmain; reflexivity.
Defined.



Lemma load_config_merge_witness :
  let base := default_config "/opt" in
  load_config (load_config base zero_interval_once) zero_interval_once =
  load_config base zero_interval_once /\
  check_interval (load_config base zero_interval_once) = 30.
Proof.
  intros base.
  destruct (load_config_merge base zero_interval_once) as (Hid & _ & _ & Hci & _).
  split; [exact Hid|]. apply Hci. reflexivity.
Defined.

Lemma log_console_implies_file_witness :
  let r := _log [Lit "Cannot connect to Zurg - exiting"] ERROR (fresh unreachable) in
  EvFile logging_ERROR [Lit "Cannot connect to Zurg - exiting"] ∈ events r.
Proof.
  intros r.
  destruct (log_console_implies_file [Lit "Cannot connect to Zurg - exiting"] ERROR
              (fresh unreachable)) as (_ & _ & _ & Himp).
  apply Himp. apply (list_elem_of_lookup_2 _ 1%nat). reflexivity.
Defined.

Lemma authentication_enabled_without_header_witness :
  let s := start (with_user "admin" "") false unreachable in
  outcome (_get_auth_headers s) = Return false /\
  EvFile logging_INFO [Lit "Authentication: "; Str "Enabled"] ∈ events (log_startup false s).
Proof.
  intros s.
  apply (authentication_enabled_without_header s false); reflexivity.
Defined.

Lemma comparison_metrics_bounds_witness :
  let st := stats (self second_check) in
  0 <= repaired st <= len (previous_check_triggered st) /\
  moved_to_repair st + still_broken st <= len (previous_check_broken st).
Proof.
  intros st.
  destruct (comparison_metrics_bounds st) as (Hr & _ & _ & _ & _ & _ & Hex).
  split; [exact Hr|]. apply Hex. intros h Hh. by apply elem_of_nil in Hh.
Defined.

Lemma show_check_summary_comparison_witness :
  EvFile logging_INFO [Lit "COMPARISON WITH PREVIOUS CHECK:"]
    ∈ events (show_check_summary second_check).
Proof.
  destruct (show_check_summary_comparison second_check) as (_ & _ & Hiff).
  apply Hiff. discriminate.
Defined.


Lemma perform_check_duplicate_free_witness :
  let s := fresh (serving [listing; listing; listing]) in
  let parse := _parse_torrents_from_html name_by_hash in
  duplicate_free (stats (self (final (perform_check decode_ascii parse s)))).
Proof.
  intros s parse.
  destruct (perform_check_duplicate_free decode_ascii name_by_hash s) as (_ & _ & _ & Hinv).
  apply Hinv. repeat split; constructor.
Defined.


Lemma perform_check_comparison_witness :
  let s := second_check_on (serving [listing; listing; empty_listing]) in
  let now_broken := map hash (rows_only listing "status_broken") in
  logged (events (perform_check decode_ascii rows_only s)) OUTPUT
    [Lit "  Still Broken:              ";
     Int (sum_1_for (fun h => str_in h now_broken) [hash_a; hash_b])].
Proof.
  intros s now_broken.
  destruct (perform_check_comparison decode_ascii rows_only s
              (Some (rows_only listing "status_broken")) (Some []))
    as (_ & _ & H3 & _).
  - vm_compute. reflexivity.
  - reflexivity.
  - discriminate.
  - exact H3.
Defined.
